(** * Murphy resolver: targets, staleness and the transactional update pass

    A shallow embedding of the target module of the resolver
    ([create_targets] ... [autoupdate_target]): the target table, the two
    staleness predicates, the checkpoint of the fact stamps, and
    [update_target], which drives one update request inside a transaction
    of the fact store.

    Modelling conventions.
    - A C [int] and a [uint32_t] stamp are integers of [Z]; the only
      arithmetic of the module is [id * r->nfact] (checked against the range
      of [int]) and the negation of [errno].
    - [r->targets] together with [r->ntarget] is the list [targets]; a
      pointer [target_t *] into that array is its index, an integer which
      may lie outside the array.
    - A sentinel-terminated index array ([update_facts], [update_targets])
      is the list of the cells that were allocated, sentinel included. The
      loops walk it cell by cell; running off its end, like any other access
      outside an array, is undefined behaviour and is reported as a fault.
    - The fact store, the transaction primitives, the allocator and the
      script engine are not part of the module; they are the operations of
      the class [Collaborators], acting on a world that also holds [errno]
      and the context table handed to the scripts. A script changes the
      world, not the target table.
    - Every call into the store's transactions and into the script engine is
      recorded in a log, so that theorems can speak about which calls were
      made and in which order. Ownership and diagnostics ([mrp_log_error],
      the clearing of the moved fields of the parse tree) have no
      counterpart. *)

From stdpp Require Import base option list gmap strings.
From Stdlib Require Import ZArith Lia Ascii.

Local Open Scope Z_scope.

(** ** Constants of the C environment *)

Definition TRUE : Z := 1.
Definition FALSE : Z := 0.
Definition EINVAL : Z := 22.
Definition ENOENT : Z := 2.
Definition INT_MAX : Z := 2147483647.
Definition INT_MIN : Z := -2147483648.

Definition int_range (z : Z) : bool := (INT_MIN <=? z) && (z <=? INT_MAX).

(** ** Data model *)

(** [target_t]. [ndepend] is the length of [depends]. A NULL
    [update_facts] or [update_targets] is [None]; [fact_stamps] is the
    allocated stamp array (empty when the pointer is NULL). *)
Record target_t {scriptlet : Type} := mk_target {
  name : string;
  depends : list string;
  update_facts : option (list Z);
  update_targets : option (list Z);
  fact_stamps : list Z;
  script : option scriptlet;
  stamp : Z
}.
Arguments target_t : clear implicits.
Arguments mk_target {scriptlet}.

(** The part of [mrp_resolver_t] this file reads and writes. [auto_update]
    points into [targets]. *)
Record mrp_resolver_t {scriptlet : Type} := mk_resolver {
  targets : list (target_t scriptlet);
  nfact : Z;
  auto_update : option Z
}.
Arguments mrp_resolver_t : clear implicits.
Arguments mk_resolver {scriptlet}.

(** The world outside the resolver: [errno] and the state of the external
    collaborators. *)
Record world {E : Type} := mk_world {
  errno : Z;
  ext : E
}.
Arguments world : clear implicits.
Arguments mk_world {E}.

(** Calls that leave the resolver. [EvExecute t st w] is the execution of
    the script of target [t], which returned [st] and left the world [w]. *)
Inductive event {E : Type} :=
| EvStart (tx : Z)
| EvCommit (tx : Z) (ok : bool)
| EvRollback (tx : Z)
| EvExecute (t : Z) (st : Z) (w : world E).
Arguments event : clear implicits.

Record state {E scriptlet : Type} := mk_state {
  res : mrp_resolver_t scriptlet;
  wld : world E;
  log : list (event E)
}.
Arguments state : clear implicits.
Arguments mk_state {E scriptlet}.

(** The parse tree handed to [create_targets]. *)
Record yy_res_target_t := mk_parsed {
  pt_name : string;
  pt_depends : list string;
  script_type : string;
  script_source : option string
}.

Record yy_res_parser_t := mk_parser {
  p_targets : list yy_res_target_t;
  p_auto_update : option string
}.

(** The external collaborators (fact.c, db.c, the scripting layer and the
    allocator), as far as this file calls them. *)
Class Collaborators (E scriptlet : Type) := {
  MQI_HANDLE_INVALID : Z;
  fact_stamp : world E → Z → Z;
  start_transaction : world E → Z * world E;
  commit_transaction : Z → world E → bool * world E;
  rollback_transaction : Z → world E → world E;
  mrp_execute_script : option scriptlet → world E → Z * world E;
  mrp_create_script : string → string → world E → option scriptlet * world E;
  create_fact : string → Z → world E → bool * Z * world E;
  mrp_reallocz : world E → bool * world E
}.

(** ** Computations: state passing with faults *)

Inductive result (S A : Type) :=
| Done (a : A) (s : S)
| Fault (s : S).
Arguments Done {S A}.
Arguments Fault {S A}.

Definition M (S A : Type) : Type := S → result S A.

Definition ret {S A} (a : A) : M S A := λ s, Done a s.

Definition bind {S A B} (m : M S A) (k : A → M S B) : M S B :=
  λ s, match m s with
       | Done a s' => k a s'
       | Fault s' => Fault s'
       end.

Declare Scope comp_scope.
Delimit Scope comp_scope with comp.
Notation "'do' x <- m ; k" := (bind m (λ x, k))
  (at level 10, x name, m at level 100, k at level 200,
   format "'[v' 'do'  x  <-  m ; '/' k ']'") : comp_scope.
Notation "'do' ' p <- m ; k" := (bind m (λ x, match x with p => k end))
  (at level 10, p pattern, m at level 100, k at level 200,
   format "'[v' 'do'  ' p  <-  m ; '/' k ']'") : comp_scope.
Notation "m ;;; k" := (bind m (λ _, k))
  (at level 100, k at level 200, right associativity) : comp_scope.

Section Target.
Context {E scriptlet : Type} `{Collaborators E scriptlet}.

Local Abbreviation target := (target_t scriptlet).
Local Abbreviation resolver := (mrp_resolver_t scriptlet).
Local Abbreviation St := (state E scriptlet).
Local Abbreviation comp := (M St).

Definition ntarget (r : resolver) : Z := Z.of_nat (length (targets r)).

(** [r->targets + id], dereferenced. *)
Definition target_at (r : resolver) (id : Z) : option target :=
  if 0 <=? id then targets r !! Z.to_nat id else None.

Definition with_fact_stamps (tg : target) (fs : list Z) : target :=
  mk_target (name tg) (depends tg) (update_facts tg) (update_targets tg)
            fs (script tg) (stamp tg).

Definition with_targets (r : resolver) (ts : list target) : resolver :=
  mk_resolver ts (nfact r) (auto_update r).

Definition with_auto_update (r : resolver) (a : option Z) : resolver :=
  mk_resolver (targets r) (nfact r) a.

(** ** Staleness predicates *)

(** The loop of [older_than_facts]; [facts] is the rest of
    [t->update_facts] from cell [i] on. *)
Fixpoint facts_newer (w : world E) (facts stamps : list Z) (i : nat)
  : option bool :=
  match facts with
  | [] => None
  | id :: facts' =>
      if id <? 0 then Some false
      else
        s ← stamps !! i;
        if s <? fact_stamp w id then Some true
        else facts_newer w facts' stamps (S i)
  end.

Definition older_than_facts (w : world E) (r : resolver) (t : Z)
  : option bool :=
  tg ← target_at r t;
  match update_facts tg with
  | None => Some true
  | Some facts => facts_newer w facts (fact_stamps tg) 0
  end.

(** The loop of [older_than_targets]; [own] is [t->stamp]. *)
Fixpoint targets_newer (r : resolver) (own : Z) (ids : list Z)
  : option bool :=
  match ids with
  | [] => None
  | id :: ids' =>
      if id <? 0 then Some false
      else
        dep ← target_at r id;
        if own <? stamp dep then Some true
        else targets_newer r own ids'
  end.

Definition older_than_targets (r : resolver) (t : Z) : option bool :=
  tg ← target_at r t;
  ids ← update_targets tg;
  targets_newer r (stamp tg) ids.

(** ** The checkpoint buffer

    [uint32_t stamps[r->ntarget * r->nfact]]: a local array whose cells
    hold nothing until they are written. *)
Record stamp_buf := mk_buf {
  buf_size : Z;
  buf_cells : gmap Z Z
}.

Definition buf_new (size : Z) : stamp_buf := mk_buf size ∅.

Definition buf_write (b : stamp_buf) (idx v : Z) : option stamp_buf :=
  if (0 <=? idx) && (idx <? buf_size b)
  then Some (mk_buf (buf_size b) (<[idx := v]> (buf_cells b)))
  else None.

Definition buf_read (b : stamp_buf) (idx : Z) : option Z :=
  if (0 <=? idx) && (idx <? buf_size b) then buf_cells b !! idx else None.

Fixpoint save_loop (facts stamps : list Z) (i : nat) (idx : Z)
  (buf : stamp_buf) : option stamp_buf :=
  match facts with
  | [] => None
  | id :: facts' =>
      if id <? 0 then Some buf
      else
        s ← stamps !! i;
        buf' ← buf_write buf idx s;
        save_loop facts' stamps (S i) (idx + 1) buf'
  end.

Definition save_fact_stamps (r : resolver) (t : Z) (buf : stamp_buf)
  : option stamp_buf :=
  tg ← target_at r t;
  match update_facts tg with
  | None => Some buf
  | Some facts =>
      let idx := t * nfact r in
      if int_range idx then save_loop facts (fact_stamps tg) 0 idx buf
      else None
  end.

Fixpoint restore_loop (facts : list Z) (i : nat) (idx : Z)
  (buf : stamp_buf) (stamps : list Z) : option (list Z) :=
  match facts with
  | [] => None
  | id :: facts' =>
      if id <? 0 then Some stamps
      else
        v ← buf_read buf idx;
        if (i <? length stamps)%nat
        then restore_loop facts' (S i) (idx + 1) buf (<[i := v]> stamps)
        else None
  end.

(** [t->fact_stamps = fs], for [t = r->targets + id]. *)
Definition set_fact_stamps (r : resolver) (t : Z) (tg : target)
  (fs : list Z) : resolver :=
  with_targets r (<[Z.to_nat t := with_fact_stamps tg fs]> (targets r)).

Definition restore_fact_stamps (r : resolver) (t : Z) (buf : stamp_buf)
  : option resolver :=
  tg ← target_at r t;
  match update_facts tg with
  | None => Some r
  | Some facts =>
      let idx := t * nfact r in
      if int_range idx then
        fs ← restore_loop facts 0 idx buf (fact_stamps tg);
        Some (set_fact_stamps r t tg fs)
      else None
  end.

(** [ids] is the rest of [t->update_targets]. *)
Fixpoint save_targets_loop (r : resolver) (ids : list Z) (buf : stamp_buf)
  : option stamp_buf :=
  match ids with
  | [] => None
  | id :: ids' =>
      if id <? 0 then Some buf
      else
        buf' ← save_fact_stamps r id buf;
        save_targets_loop r ids' buf'
  end.

Definition save_target_stamps (r : resolver) (t : Z) (buf : stamp_buf)
  : option stamp_buf :=
  tg ← target_at r t;
  ids ← update_targets tg;
  save_targets_loop r ids buf.

Fixpoint restore_targets_loop (r : resolver) (ids : list Z)
  (buf : stamp_buf) : option resolver :=
  match ids with
  | [] => None
  | id :: ids' =>
      if id <? 0 then Some r
      else
        r' ← restore_fact_stamps r id buf;
        restore_targets_loop r' ids' buf
  end.

Definition restore_target_stamps (r : resolver) (t : Z) (buf : stamp_buf)
  : option resolver :=
  tg ← target_at r t;
  ids ← update_targets tg;
  restore_targets_loop r ids buf.

Fixpoint refresh_loop (w : world E) (facts : list Z) (i : nat)
  (stamps : list Z) : option (list Z) :=
  match facts with
  | [] => None
  | id :: facts' =>
      if id <? 0 then Some stamps
      else if (i <? length stamps)%nat
      then refresh_loop w facts' (S i) (<[i := fact_stamp w id]> stamps)
      else None
  end.

Definition update_target_stamps (w : world E) (r : resolver) (t : Z)
  : option resolver :=
  tg ← target_at r t;
  match update_facts tg with
  | None => Some r
  | Some facts =>
      fs ← refresh_loop w facts 0 (fact_stamps tg);
      Some (set_fact_stamps r t tg fs)
  end.

(** ** Primitive computations *)

Definition emit (e : event E) : comp unit :=
  λ s, Done tt (mk_state (res s) (wld s) (log s ++ [e])).

(** A read of the resolver that faults when it leaves an array. *)
Definition reading {A} (f : world E → resolver → option A) : comp A :=
  λ s, match f (wld s) (res s) with
       | Some a => Done a s
       | None => Fault s
       end.

(** A write into the resolver that faults when it leaves an array. *)
Definition writing (f : world E → resolver → option resolver) : comp unit :=
  λ s, match f (wld s) (res s) with
       | Some r' => Done tt (mk_state r' (wld s) (log s))
       | None => Fault s
       end.

Definition get_errno : comp Z := λ s, Done (errno (wld s)) s.

Definition set_errno (e : Z) : comp unit :=
  λ s, Done tt (mk_state (res s) (mk_world e (ext (wld s))) (log s)).

(** An external call on the world. *)
Definition extern {A} (f : world E → A * world E) : comp A :=
  λ s, let '(a, w') := f (wld s) in Done a (mk_state (res s) w' (log s)).

Definition do_start_transaction : comp Z :=
  (do tx <- extern start_transaction;
   emit (EvStart tx);;;
   ret tx)%comp.

Definition do_commit_transaction (tx : Z) : comp bool :=
  (do ok <- extern (commit_transaction tx);
   emit (EvCommit tx ok);;;
   ret ok)%comp.

Definition do_rollback_transaction (tx : Z) : comp unit :=
  (extern (λ w, (tt, rollback_transaction tx w));;;
   emit (EvRollback tx))%comp.

(** [mrp_execute_script(t->script, r->ctbl)] for [t = r->targets + id]. *)
Definition execute_script_of (id : Z) : comp Z :=
  (do tg <- reading (λ _ r, target_at r id);
   do st <- extern (mrp_execute_script (script tg));
   (λ s, Done st (mk_state (res s) (wld s)
                           (log s ++ [EvExecute id st (wld s)]))))%comp.

(** [-errno], or [-EINVAL] when [errno] is clear. *)
Definition error_status : comp Z :=
  (do e <- get_errno;
   ret (if e =? 0 then - EINVAL else - e))%comp.

(** ** [update_target] *)

(** The dependency loop; [ids] is the rest of [t->update_targets], and
    [status], [needs_update] are the locals of the same name. *)
Fixpoint update_target_walk (t : Z) (ids : list Z) (status : Z)
  (needs_update : bool) : comp (Z * bool) :=
  match ids with
  | [] => Fault
  | id :: ids' =>
      if id <? 0 then ret (status, needs_update)
      else if id =? t then ret (status, needs_update)
      else
        (do older <- reading (λ w r, older_than_facts w r id);
         do stale <- (if older : bool then ret true
                      else reading (λ _ r, older_than_targets r id));
         if stale : bool then
           do st <- execute_script_of id;
           if st <=? 0 then ret (st, true)
           else
             writing (λ w r, update_target_stamps w r id);;;
             update_target_walk t ids' st true
         else update_target_walk t ids' status needs_update)%comp
  end.

(** From [status = TRUE] to the closing brace of the subject's own
    update. *)
Definition update_target_pass (t : Z) : comp Z :=
  (do needs <- reading (λ w r, older_than_facts w r t);
   do ids <- reading (λ _ r, tg ← target_at r t; update_targets tg);
   do '(status, needs_update) <- update_target_walk t ids TRUE needs;
   if (needs_update : bool) && (0 <? status) then
     do st <- execute_script_of t;
     if 0 <? st then
       writing (λ w r, update_target_stamps w r t);;;
       ret st
     else ret st
   else ret status)%comp.

Definition update_target (t : Z) : comp Z :=
  (do tx <- do_start_transaction;
   if tx =? MQI_HANDLE_INVALID then error_status
   else
     do stamps <- reading (λ _ r,
                    save_target_stamps r t (buf_new (ntarget r * nfact r)));
     do status <- update_target_pass t;
     if status <=? 0 then
       do_rollback_transaction tx;;;
       writing (λ _ r, restore_target_stamps r t stamps);;;
       ret status
     else
       do ok <- do_commit_transaction tx;
       if ok : bool then ret status
       else
         writing (λ _ r, restore_target_stamps r t stamps);;;
         error_status)%comp.

(** ** Entry points *)

(** The scan of [update_target_by_name]; [ts] is the rest of [r->targets]
    from index [i] on. *)
Fixpoint update_target_scan (ts : list target) (i : Z) (nm : string)
  : comp Z :=
  match ts with
  | [] => ret FALSE
  | tg :: ts' =>
      if String.eqb (name tg) nm then update_target i
      else update_target_scan ts' (i + 1) nm
  end.

Definition update_target_by_name (nm : string) : comp Z :=
  λ s, update_target_scan (targets (res s)) 0 nm s.

Definition update_target_by_id (id : Z) : comp Z :=
  λ s, if id <? ntarget (res s) then update_target id s else ret FALSE s.

Section Autoupdate.
(** [mrp_resolver_update_targetl(r, name, NULL)] lives in resolver.c; it is
    the by-name update entry of the resolver, here called with an empty
    list of context variables. *)
Variable mrp_resolver_update_targetl : string → comp Z.

Definition autoupdate_target : comp Z :=
  λ s, match auto_update (res s) with
       | Some a =>
           (do tg <- reading (λ _ r, target_at r a);
            mrp_resolver_update_targetl (name tg))%comp s
       | None => ret TRUE s
       end.
End Autoupdate.

(** ** [create_targets] *)

(** [*name == '$']. *)
Definition is_fact_name (nm : string) : bool :=
  match nm with
  | String c _ => Ascii.eqb c "$"%char
  | EmptyString => false
  end.

Definition do_create_fact (nm : string) : comp bool :=
  λ s, let '(ok, nf, w') := create_fact nm (nfact (res s)) (wld s) in
       Done ok (mk_state (mk_resolver (targets (res s)) nf
                                      (auto_update (res s))) w' (log s)).

(** The loop over [t->depends]; [false] is the early [return -1]. *)
Fixpoint create_target_facts (deps : list string) : comp bool :=
  match deps with
  | [] => ret true
  | d :: deps' =>
      if is_fact_name d then
        (do ok <- do_create_fact d;
         if ok : bool then create_target_facts deps' else ret false)%comp
      else create_target_facts deps'
  end.

(** The array grown by one zeroed record, whose [name] and [depends] are
    then taken from the declaration; the result is [t - r->targets]. *)
Definition append_target (pt : yy_res_target_t) : comp Z :=
  λ s, let r := res s in
       Done (ntarget r)
            (mk_state (with_targets r
                         (targets r ++
                          [mk_target (pt_name pt) (pt_depends pt) None None
                                     [] None 0]))
                      (wld s) (log s)).

Definition set_script (t : Z) (sc : option scriptlet) : comp unit :=
  writing (λ _ r,
    tg ← target_at r t;
    Some (with_targets r
            (<[Z.to_nat t := mk_target (name tg) (depends tg)
                               (update_facts tg) (update_targets tg)
                               (fact_stamps tg) sc (stamp tg)]>
               (targets r)))).

(** The loop over the parsed declarations. [None] is an early
    [return -1]; [Some a] is the value of the local [auto_update] when the
    loop has run to its end. *)
Fixpoint create_targets_loop (pts : list yy_res_target_t)
  (wanted : option string) (auto : Z) : comp (option Z) :=
  match pts with
  | [] => ret (Some auto)
  | pt :: pts' =>
      (do grown <- extern mrp_reallocz;
       if negb grown then ret None
       else
         do t <- append_target pt;
         do bound <- match script_source pt with
                     | Some src =>
                         do sc <- extern (mrp_create_script (script_type pt)
                                                            src);
                         set_script t sc;;;
                         ret (bool_decide (sc ≠ None))
                     | None => ret true
                     end;
         if negb bound then ret None
         else
           do known <- create_target_facts (pt_depends pt);
           if negb known then ret None
           else
             let auto' := match wanted with
                          | Some nm =>
                              if String.eqb nm (pt_name pt) then t else auto
                          | None => auto
                          end in
             create_targets_loop pts' wanted auto')%comp
  end.

(** [r->ntarget = 0; r->targets = NULL]. *)
Definition reset_targets : comp unit :=
  λ s, Done tt (mk_state (with_targets (res s) []) (wld s) (log s)).

Definition create_targets (parser : yy_res_parser_t) : comp Z :=
  (reset_targets;;;
   do found <- create_targets_loop (p_targets parser)
                                   (p_auto_update parser) (-1);
   match found with
   | None => ret (-1)
   | Some auto =>
       if 0 <=? auto then
         (λ s, Done 0 (mk_state (with_auto_update (res s) (Some auto))
                                (wld s) (log s)))
       else
         match p_auto_update parser with
         | Some _ => set_errno ENOENT;;; ret (-1)
         | None => ret 0
         end
   end)%comp.

(** ** Well-formed tables

    What the sorting stage (not part of this file) leaves behind and the
    update pass relies on: both index arrays end with their sentinel, a
    target's stamp array covers the facts it tracks, no target tracks more
    than [nfact] facts, every index of an update order lies in the target
    table, and the size of the checkpoint buffer is an [int]. *)

(** The cells of a sentinel-terminated array before its sentinel. *)
Fixpoint before_sentinel (a : list Z) : list Z :=
  match a with
  | [] => []
  | id :: a' => if id <? 0 then [] else id :: before_sentinel a'
  end.

Definition terminated (a : list Z) : bool := existsb (λ id, id <? 0) a.

(** The facts a target tracks: the entries of [update_facts]. *)
Definition tracked (tg : target) : list Z :=
  match update_facts tg with
  | Some a => before_sentinel a
  | None => []
  end.

(** The targets listed in the update order of [t]. *)
Definition closure (r : resolver) (t : Z) : list Z :=
  match target_at r t with
  | Some tg => from_option before_sentinel [] (update_targets tg)
  | None => []
  end.

Definition wf_facts (nf : Z) (tg : target) : bool :=
  match update_facts tg with
  | None => true
  | Some a =>
      terminated a
      && (length (before_sentinel a) <=? length (fact_stamps tg))%nat
      && (Z.of_nat (length (before_sentinel a)) <=? nf)
  end.

Definition wf_order (n : Z) (tg : target) : bool :=
  match update_targets tg with
  | None => false
  | Some a => terminated a && forallb (λ id, id <? n) (before_sentinel a)
  end.

Definition wf_target (r : resolver) (tg : target) : bool :=
  wf_facts (nfact r) tg && wf_order (ntarget r) tg.

Definition wf_resolver (r : resolver) : bool :=
  forallb (wf_target r) (targets r)
  && (0 <=? nfact r)
  && (ntarget r * nfact r <=? INT_MAX).

(** ** The update pass, as the design describes it *)

(** A dependency is stale when either predicate says so. *)
Definition stale (w : world E) (r : resolver) (d : Z) : option bool :=
  match older_than_facts w r d with
  | Some true => Some true
  | Some false => older_than_targets r d
  | None => None
  end.

(** The dependencies the walk visits: the entries of the update order
    before the first one that is the subject itself. *)
Fixpoint visited (ids : list Z) (t : Z) : list Z :=
  match ids with
  | [] => []
  | id :: ids' =>
      if (id <? 0) || (id =? t) then [] else id :: visited ids' t
  end.

(** The stamp vector of a target brought up to the current fact stamps:
    one current stamp per tracked fact, the rest of the array as it was. *)
Definition synced_stamps (w : world E) (tg : target) : list Z :=
  map (fact_stamp w) (tracked tg)
  ++ drop (length (tracked tg)) (fact_stamps tg).

Definition refreshed (w : world E) (r : resolver) (d : Z) : option resolver :=
  tg ← target_at r d;
  Some (set_fact_stamps r d tg (synced_stamps w tg)).

(** [walk_spec ds r w st needs evs st' needs' r' w']: walking the
    dependencies [ds] from resolver [r] and world [w], with status [st] and
    flag [needs], performs the calls [evs] and ends with status [st'], flag
    [needs'], resolver [r'] and world [w']. *)
Inductive walk_spec :
  list Z → resolver → world E → Z → bool →
  list (event E) → Z → bool → resolver → world E → Prop :=
| walk_end r w st needs :
    walk_spec [] r w st needs [] st needs r w
| walk_fresh d ds r w st needs evs st' needs' r' w' :
    stale w r d = Some false →
    walk_spec ds r w st needs evs st' needs' r' w' →
    walk_spec (d :: ds) r w st needs evs st' needs' r' w'
| walk_failed d ds r w st needs tg st1 w1 :
    stale w r d = Some true →
    target_at r d = Some tg →
    mrp_execute_script (script tg) w = (st1, w1) →
    st1 ≤ 0 →
    walk_spec (d :: ds) r w st needs [EvExecute d st1 w1] st1 true r w1
| walk_updated d ds r w st needs tg st1 w1 r1 evs st' needs' r' w' :
    stale w r d = Some true →
    target_at r d = Some tg →
    mrp_execute_script (script tg) w = (st1, w1) →
    0 < st1 →
    refreshed w1 r d = Some r1 →
    walk_spec ds r1 w1 st1 true evs st' needs' r' w' →
    walk_spec (d :: ds) r w st needs (EvExecute d st1 w1 :: evs)
              st' needs' r' w'.

(** [pass_spec t r w evs st r' w']: the whole pass on subject [t]. The
    subject's own procedure runs when the walk did not fail and the flag is
    set, and a successful run refreshes the subject's stamps. *)
Inductive pass_spec (t : Z) (r : resolver) (w : world E) :
  list (event E) → Z → resolver → world E → Prop :=
| pass_walk_only tg ids needs0 evs st needs r1 w1 :
    target_at r t = Some tg →
    update_targets tg = Some ids →
    older_than_facts w r t = Some needs0 →
    walk_spec (visited ids t) r w TRUE needs0 evs st needs r1 w1 →
    needs = false ∨ st ≤ 0 →
    pass_spec t r w evs st r1 w1
| pass_own_failed tg ids needs0 evs st r1 w1 tg1 st2 w2 :
    target_at r t = Some tg →
    update_targets tg = Some ids →
    older_than_facts w r t = Some needs0 →
    walk_spec (visited ids t) r w TRUE needs0 evs st true r1 w1 →
    0 < st →
    target_at r1 t = Some tg1 →
    mrp_execute_script (script tg1) w1 = (st2, w2) →
    st2 ≤ 0 →
    pass_spec t r w (evs ++ [EvExecute t st2 w2]) st2 r1 w2
| pass_own_updated tg ids needs0 evs st r1 w1 tg1 st2 w2 r2 :
    target_at r t = Some tg →
    update_targets tg = Some ids →
    older_than_facts w r t = Some needs0 →
    walk_spec (visited ids t) r w TRUE needs0 evs st true r1 w1 →
    0 < st →
    target_at r1 t = Some tg1 →
    mrp_execute_script (script tg1) w1 = (st2, w2) →
    0 < st2 →
    refreshed w2 r1 t = Some r2 →
    pass_spec t r w (evs ++ [EvExecute t st2 w2]) st2 r2 w2.

(** The status made from [errno] after a failure of the store. *)
Definition store_error (w : world E) : Z :=
  if errno w =? 0 then - EINVAL else - errno w.

(** [rolled_back r0 t r]: every target of the update order of [t] is in
    [r] what it was in [r0]. *)
Definition rolled_back (r0 : resolver) (t : Z) (r : resolver) : Prop :=
  ∀ id, id ∈ closure r0 t → target_at r id = target_at r0 id.

(** [update_spec t r w evs st r' w']: one update request on [t], with its
    four ways out: the transaction could not be opened; a procedure failed;
    everything succeeded and the commit went through; the commit failed. *)
Inductive update_spec (t : Z) (r : resolver) (w : world E) :
  list (event E) → Z → resolver → world E → Prop :=
| update_not_opened tx w1 :
    start_transaction w = (tx, w1) →
    tx = MQI_HANDLE_INVALID →
    update_spec t r w [EvStart tx] (store_error w1) r w1
| update_rolled_back tx w1 evs st r2 w2 r3 :
    start_transaction w = (tx, w1) →
    tx ≠ MQI_HANDLE_INVALID →
    pass_spec t r w1 evs st r2 w2 →
    st ≤ 0 →
    rolled_back r t r3 →
    update_spec t r w (EvStart tx :: evs ++ [EvRollback tx]) st r3
                (rollback_transaction tx w2)
| update_committed tx w1 evs st r2 w2 w3 :
    start_transaction w = (tx, w1) →
    tx ≠ MQI_HANDLE_INVALID →
    pass_spec t r w1 evs st r2 w2 →
    0 < st →
    commit_transaction tx w2 = (true, w3) →
    update_spec t r w (EvStart tx :: evs ++ [EvCommit tx true]) st r2 w3
| update_commit_failed tx w1 evs st r2 w2 w3 r3 :
    start_transaction w = (tx, w1) →
    tx ≠ MQI_HANDLE_INVALID →
    pass_spec t r w1 evs st r2 w2 →
    0 < st →
    commit_transaction tx w2 = (false, w3) →
    rolled_back r t r3 →
    update_spec t r w (EvStart tx :: evs ++ [EvCommit tx false])
                (store_error w3) r3 w3.

(** ** Invariants of a pass *)

(** [same_but_stamps tg0 tg]: [tg] is [tg0] up to the stamps of the facts
    [tg0] tracks. *)
Definition same_but_stamps (tg0 tg : target) : Prop :=
  tg = with_fact_stamps tg0 (fact_stamps tg)
  ∧ length (fact_stamps tg) = length (fact_stamps tg0)
  ∧ drop (length (tracked tg0)) (fact_stamps tg)
    = drop (length (tracked tg0)) (fact_stamps tg0).

(** [frame r0 r]: since [r0], only stamps of tracked facts were written. *)
Definition frame (r0 r : resolver) : Prop :=
  nfact r = nfact r0
  ∧ auto_update r = auto_update r0
  ∧ Forall2 same_but_stamps (targets r0) (targets r).

(** [buf_holds r0 buf id]: the slice of target [id] in the checkpoint
    buffer holds the stamps that [id] has in [r0]. *)
Definition buf_holds (r0 : resolver) (buf : stamp_buf) (id : Z) : Prop :=
  ∀ tg k, target_at r0 id = Some tg →
          (k < length (tracked tg))%nat →
          buf_read buf (id * nfact r0 + Z.of_nat k) = fact_stamps tg !! k.

(** ** Reading the log *)

Definition exec_status (e : event E) : option Z :=
  match e with
  | EvExecute _ st _ => Some st
  | _ => None
  end.

(** The statuses of the procedures executed, in order. *)
Definition exec_statuses (evs : list (event E)) : list Z :=
  omap exec_status evs.

(** The worlds left by the executions of the procedure of target [x]. *)
Definition exec_worlds (x : Z) (evs : list (event E)) : list (world E) :=
  omap (λ e, match e with
             | EvExecute d _ w => if d =? x then Some w else None
             | _ => None
             end) evs.

Definition is_execute (e : event E) : Prop := is_Some (exec_status e).

Definition some_exec_failed (evs : list (event E)) : Prop :=
  ∃ st, st ∈ exec_statuses evs ∧ st ≤ 0.

Definition rollback_called (evs : list (event E)) : Prop :=
  ∃ tx, EvRollback tx ∈ evs.

Definition commit_failed (evs : list (event E)) : Prop :=
  ∃ tx, EvCommit tx false ∈ evs.

Definition committed (evs : list (event E)) : Prop :=
  ∃ tx, EvCommit tx true ∈ evs.

(** [synced r x w]: the stamps target [x] caches for its tracked facts are
    the stamps those facts have in world [w]. *)
Definition synced (r : resolver) (x : Z) (w : world E) : Prop :=
  ∃ tg, target_at r x = Some tg
        ∧ take (length (tracked tg)) (fact_stamps tg)
          = map (fact_stamp w) (tracked tg).

(** The state in which a computation stops, whether it returns or faults. *)
Definition final_state {A} (o : result St A) : St :=
  match o with
  | Done _ s => s
  | Fault s => s
  end.

(** [grows m]: [m] only adds calls to the log. *)
Definition grows {A} (m : comp A) : Prop :=
  ∀ s, ∃ evs, log (final_state (m s)) = log s ++ evs.

(** [materialized parser s]: from [s], the loop of [create_targets] gets
    through every declaration of [parser]: no allocation, script binding
    or fact registration fails. *)
Definition materialized (parser : yy_res_parser_t) (s : St) : Prop :=
  ∃ a s1,
    (reset_targets;;;
     create_targets_loop (p_targets parser) (p_auto_update parser) (-1))%comp s
    = Done (Some a) s1.

End Target.

(** ** Compiling and preparing the scripts of the targets *)

(** The two passes of the scripting layer over a bound script. The
    scriptlet of a target is the handle of the script; what compiling and
    preparing leave behind lives in the world. *)
Class ScriptEngine (E scriptlet : Type) := {
  mrp_compile_script : option scriptlet → world E → Z * world E;
  mrp_prepare_script : option scriptlet → world E → Z * world E
}.

Section Scripts.
Context {E scriptlet : Type} `{ScriptEngine E scriptlet}.

Local Abbreviation target := (target_t scriptlet).
Local Abbreviation St := (state E scriptlet).
Local Abbreviation comp := (M St).

(** The loop of [compile_target_scripts]; [ts] is the rest of
    [r->targets]. *)
Fixpoint compile_scripts_loop (ts : list target) : comp Z :=
  match ts with
  | [] => ret 0
  | tg :: ts' =>
      (do st <- extern (mrp_compile_script (script tg));
       if st <? 0 then ret (-1) else compile_scripts_loop ts')%comp
  end.

Definition compile_target_scripts : comp Z :=
  λ s, compile_scripts_loop (targets (res s)) s.

(** The loop of [prepare_target_scripts]. *)
Fixpoint prepare_scripts_loop (ts : list target) : comp Z :=
  match ts with
  | [] => ret 0
  | tg :: ts' =>
      (do st <- extern (mrp_prepare_script (script tg));
       if st <? 0 then ret (-1) else prepare_scripts_loop ts')%comp
  end.

Definition prepare_target_scripts : comp Z :=
  λ s, prepare_scripts_loop (targets (res s)) s.

(** [engine_calls f scs w]: the statuses returned and the world left when
    [f] is called on the scripts [scs] in order, from world [w]. *)
Fixpoint engine_calls (f : option scriptlet → world E → Z * world E)
  (scs : list (option scriptlet)) (w : world E) : list Z * world E :=
  match scs with
  | [] => ([], w)
  | sc :: scs' =>
      let '(st, w1) := f sc w in
      let '(sts, w2) := engine_calls f scs' w1 in
      (st :: sts, w2)
  end.

(** [stopped_at_first_failure st n k sts]: of [n] scripts the first [k]
    were handed to the engine, with statuses [sts]; either all [n] went
    through and the pass returns 0, or the last one handed over is the
    first to fail and the pass returns [-1]. *)
Definition stopped_at_first_failure (st : Z) (n k : nat) (sts : list Z)
  : Prop :=
  st = 0 ∧ k = n ∧ Forall (λ x, 0 ≤ x) sts
  ∨ st = -1 ∧ ∃ sts0 bad, sts = sts0 ++ [bad]
                           ∧ Forall (λ x, 0 ≤ x) sts0 ∧ bad < 0.

End Scripts.

(** ** What [create_targets] makes of a declaration *)

Section Built.
Context {scriptlet : Type}.

(** [built pt tg]: [tg] is the record [create_targets] builds from the
    declaration [pt]: its name and dependencies, a script exactly when the
    declaration carries a source, and everything else zero. *)
Definition built (pt : yy_res_target_t) (tg : target_t scriptlet) : Prop :=
  name tg = pt_name pt
  ∧ depends tg = pt_depends pt
  ∧ update_facts tg = None
  ∧ update_targets tg = None
  ∧ fact_stamps tg = []
  ∧ stamp tg = 0
  ∧ (is_Some (script tg) ↔ is_Some (script_source pt)).

End Built.

(** ** Zones

    The zone table of the resource library: one zone definition, and up to
    [MRP_ZONE_MAX] zones addressed by the index they were created at. *)
Module Zone.

(** [mrp_attr_def_t], of which this module reads the [name]; [B] is the
    rest of the record. *)
Record mrp_attr_def_t {B : Type} := mk_attr {
  attr_name : option string;
  attr_rest : B
}.
Arguments mrp_attr_def_t : clear implicits.
Arguments mk_attr {B}.

Record mrp_zone_def_t {B : Type} := mk_zone_def {
  nattr : Z;
  attrdefs : list (mrp_attr_def_t B)
}.
Arguments mrp_zone_def_t : clear implicits.
Arguments mk_zone_def {B}.

(** [mrp_zone_t]; [V] is the type of an attribute value. *)
Record mrp_zone_t {V : Type} := mk_zone {
  zone_name : string;
  zone_attrs : list V
}.
Arguments mrp_zone_t : clear implicits.
Arguments mk_zone {V}.

(** The three statics of the module and the world of its collaborators. *)
Record zones {B V W : Type} := mk_zones {
  zone_def : option (mrp_zone_def_t B);
  zone_count : Z;
  zone_table : list (option (mrp_zone_t V));
  zworld : W
}.
Arguments zones : clear implicits.
Arguments mk_zones {B V W}.

(** The constants of the headers and the functions of the allocator and of
    the attribute module. [zero_rest] is the all-zero rest of an attribute
    definition, as [mrp_allocz] leaves it. *)
Class Collaborators (B V W : Type) := {
  MRP_ZONE_MAX : Z;
  MRP_ZONE_ID_INVALID : Z;
  zero_rest : B;
  mrp_allocz : W → bool * W;
  mrp_strdup : string → W → option string * W;
  mrp_attribute_copy_definitions :
    option (list (mrp_attr_def_t B)) → list (mrp_attr_def_t B) → W →
    Z * list (mrp_attr_def_t B) * W;
  mrp_attribute_set_values :
    option (list (mrp_attr_def_t B)) → Z → list (mrp_attr_def_t B) → W →
    Z * list V * W
}.

Section Zones.
Context {B V W : Type} `{Collaborators B V W}.

Local Abbreviation Zs := (zones B V W).
Local Abbreviation comp := (M Zs).

(** The table before any call: no definition, no zone. *)
Definition initial (w : W) : Zs :=
  mk_zones None 0 (replicate (Z.to_nat MRP_ZONE_MAX) None) w.

Definition zextern {A} (f : W → A * W) : comp A :=
  λ s, let '(a, w') := f (zworld s) in
       Done a (mk_zones (zone_def s) (zone_count s) (zone_table s) w').

(** The counting loop of [mrp_zone_definition_create]; [defs] is the rest
    of [attrdefs] from cell [n] on. *)
Fixpoint count_attrs (defs : list (mrp_attr_def_t B)) (n : Z) : option Z :=
  match defs with
  | [] => None
  | d :: defs' =>
      match attr_name d with
      | None => Some n
      | Some _ => count_attrs defs' (n + 1)
      end
  end.

Definition mrp_zone_definition_create
  (defs : option (list (mrp_attr_def_t B))) : comp Z :=
  λ s,
    match match defs with
          | None => Some 0
          | Some l => count_attrs l 0
          end with
    | None => Fault s
    | Some n =>
        (do ok <- zextern mrp_allocz;
         if negb ok then ret (-1)
         else
           do st <- (λ s1,
                     let '(st, copied, w') :=
                       mrp_attribute_copy_definitions defs
                         (replicate (Z.to_nat n) (mk_attr None zero_rest))
                         (zworld s1) in
                     Done st (mk_zones (Some (mk_zone_def n copied))
                                       (zone_count s1) (zone_table s1) w'));
           if st <? 0 then ret (-1) else ret 0)%comp s
    end.

Definition mrp_zone_count : comp Z := λ s, Done (zone_count s) s.

Definition mrp_zone_create (nm : string)
  (attrs : option (list (mrp_attr_def_t B))) : comp Z :=
  λ s,
    match zone_def s with
    | None => ret MRP_ZONE_ID_INVALID s
    | Some def =>
        if MRP_ZONE_MAX <=? zone_count s then ret MRP_ZONE_ID_INVALID s
        else
          (do ok <- zextern mrp_allocz;
           if negb ok then ret MRP_ZONE_ID_INVALID
           else
             do dup <- zextern (mrp_strdup nm);
             match dup with
             | None => ret MRP_ZONE_ID_INVALID
             | Some dup_name =>
                 do '(sts, values) <-
                   zextern (λ w,
                     let '(sts, values, w') :=
                       mrp_attribute_set_values attrs (nattr def)
                                                (attrdefs def) w in
                     ((sts, values), w'));
                 if sts <? 0 then ret MRP_ZONE_ID_INVALID
                 else
                   (λ s1,
                    let id := zone_count s1 in
                    if (0 <=? id)
                       && (Z.to_nat id <? length (zone_table s1))%nat
                    then
                      Done id
                        (mk_zones (zone_def s1) (id + 1)
                           (<[Z.to_nat id :=
                                Some (mk_zone dup_name values)]>
                              (zone_table s1))
                           (zworld s1))
                    else Fault s1)
             end)%comp s
    end.

(** [id] is a [uint32_t]: it is not negative. *)
Definition mrp_zone_find_by_id (id : Z) : comp (option (mrp_zone_t V)) :=
  λ s,
    if id <? zone_count s then
      match zone_table s !! Z.to_nat id with
      | Some slot => Done slot s
      | None => Fault s
      end
    else Done None s.

(** What the table looks like between calls: the count is within the
    table, and every slot below the count holds a zone. *)
Definition zones_inv (s : Zs) : Prop :=
  0 ≤ zone_count s ≤ MRP_ZONE_MAX
  ∧ length (zone_table s) = Z.to_nat MRP_ZONE_MAX
  ∧ ∀ i, (i < Z.to_nat (zone_count s))%nat →
         ∃ z, zone_table s !! i = Some (Some z).

End Zones.
End Zone.

(** ** A concrete fact store and script engine

    A small instance of the collaborators, on which the operations can be
    run: the store keeps one stamp per fact, a script either bumps the
    stamp of one fact or does nothing, and returns a fixed status. *)
Module Demo.

Inductive script_t :=
| Bump (fact : nat) (st : Z)
| Return (st : Z).

Record store := mk_store {
  stamps : list Z;
  commit_ok : bool
}.

Definition bump (f : nat) (w : world store) : world store :=
  mk_world (errno w)
    (mk_store (alter (λ v, v + 1) f (stamps (ext w))) (commit_ok (ext w))).

#[export] Instance demo : Collaborators store script_t := {
  MQI_HANDLE_INVALID := 4294967295;
  fact_stamp w id := default 0 (stamps (ext w) !! Z.to_nat id);
  start_transaction w := (1, w);
  commit_transaction tx w :=
    if commit_ok (ext w) then (true, w) else (false, mk_world 5 (ext w));
  rollback_transaction tx w := w;
  mrp_execute_script sc w :=
    match sc with
    | None => (TRUE, w)
    | Some (Bump f st) => (st, bump f w)
    | Some (Return st) => (st, w)
    end;
  mrp_create_script ty src w :=
    if String.eqb ty "simple" then (Some (Return 1), w)
    else (None, mk_world ENOENT (ext w));
  create_fact nm nf w :=
    (true, nf + 1,
     mk_world (errno w) (mk_store (stamps (ext w) ++ [0]) (commit_ok (ext w))));
  mrp_reallocz w := (true, w)
}.

Definition tgt (nm : string) (uf : option (list Z)) (ut : list Z)
  (fs : list Z) (sc : option script_t) : target_t script_t :=
  mk_target nm [] uf (Some ut) fs sc 0.

Definition st0 (ts : list (target_t script_t)) (nf : Z) (fstamps : list Z)
  (ok : bool) : state store script_t :=
  mk_state (mk_resolver ts nf None) (mk_world 0 (mk_store fstamps ok)) [].

(** Target [a] tracks fact 0 and bumps it; target [b] tracks fact 0 and
    depends on [a]. Both cache stamp 0 while the fact is at stamp 1. *)
Definition dep_a : target_t script_t :=
  tgt "a" (Some [0; -1]) [0; -1] [0] (Some (Bump 0 1)).

Definition sub_b (sc : script_t) : target_t script_t :=
  tgt "b" (Some [0; -1]) [0; 1; -1] [0] (Some sc).

(** [b]'s own procedure fails after [a]'s has run. *)
Definition failing : state store script_t :=
  st0 [dep_a; sub_b (Return 0)] 1 [1] true.

(** Both procedures succeed and the store commits. *)
Definition succeeding : state store script_t :=
  st0 [dep_a; sub_b (Return 3)] 1 [1] true.

(** Both procedures succeed and the store refuses the commit. *)
Definition commit_failing : state store script_t :=
  st0 [dep_a; sub_b (Return 3)] 1 [1] false.

(** A single target, up to date with its fact. *)
Definition fresh : state store script_t :=
  st0 [tgt "c" (Some [0; -1]) [0; -1] [1] (Some (Return 1))] 1 [1] true.

(** The same target, behind its fact. *)
Definition behind : state store script_t :=
  st0 [tgt "c" (Some [0; -1]) [0; -1] [0] (Some (Return 1))] 1 [1] true.

(** A resolver whose auto-update target is [b]. *)
Definition with_auto : state store script_t :=
  mk_state (mk_resolver [dep_a; sub_b (Return 3)] 1 (Some 1))
           (mk_world 0 (mk_store [1] true)) [].

Definition two_declarations (wanted : option string) : yy_res_parser_t :=
  mk_parser [mk_parsed "a" ["$f"; "x"] "simple" (Some "src");
             mk_parsed "b" ["a"] "" None] wanted.

(** A target that tracks no fact. *)
Definition untracked : state store script_t :=
  st0 [tgt "n" None [0; -1] [] (Some (Return 2))] 0 [] true.

(** Two declarations of the same name around a third one. *)
Definition twice_a (wanted : option string) : yy_res_parser_t :=
  mk_parser [mk_parsed "a" [] "" None;
             mk_parsed "b" [] "" None;
             mk_parsed "a" ["$f"] "simple" (Some "src")] wanted.

(** An engine that compiles every script but [Return 0], and prepares
    every script. *)
#[export] Instance demo_engine : ScriptEngine store script_t := {
  mrp_compile_script sc w :=
    match sc with
    | Some (Return 0) => (-1, w)
    | _ => (0, w)
    end;
  mrp_prepare_script sc w := (0, w)
}.

(** Zones over an allocator with a budget: each allocation takes one unit
    and fails when none is left. *)
#[export] Instance demo_zones : Zone.Collaborators unit Z nat := {
  Zone.MRP_ZONE_MAX := 2;
  Zone.MRP_ZONE_ID_INVALID := 4294967295;
  Zone.zero_rest := tt;
  Zone.mrp_allocz w := ((0 <? w)%nat, pred w);
  Zone.mrp_strdup nm w := (Some nm, w);
  Zone.mrp_attribute_copy_definitions defs dest w :=
    (0, take (length dest) (default [] defs), w);
  Zone.mrp_attribute_set_values attrs n defs w :=
    (0, replicate (Z.to_nat n) 0, w)
}.

(** A table with a definition of no attribute and one zone. *)
Definition one_zone : Zone.zones unit Z nat :=
  Zone.mk_zones (Some (Zone.mk_zone_def 0 [])) 1
                [Some (Zone.mk_zone "first" []); None] 5%nat.

(** The table after a second zone was created. *)
Definition two_zones : Zone.zones unit Z nat :=
  Zone.mk_zones (Some (Zone.mk_zone_def 0 [])) 2
                [Some (Zone.mk_zone "first" []);
                 Some (Zone.mk_zone "second" [])] 4%nat.

(** Two named attribute definitions and the nameless one that ends the
    array. *)
Definition two_attrs : list (Zone.mrp_attr_def_t unit) :=
  [Zone.mk_attr (Some "x") tt; Zone.mk_attr (Some "y") tt;
   Zone.mk_attr None tt].

End Demo.

(** * Properties *)

Section Properties.
Context {E scriptlet : Type} `{Collaborators E scriptlet}.

Local Abbreviation target := (target_t scriptlet).
Local Abbreviation resolver := (mrp_resolver_t scriptlet).
Local Abbreviation St := (state E scriptlet).

(** ** Sentinel-terminated arrays *)

Lemma before_sentinel_nonneg a id : id ∈ before_sentinel a → 0 ≤ id.
Proof.
  induction a as [|x a IH]; simpl; [by intros ?%elem_of_nil|].
  destruct (Z.ltb_spec x 0); [by intros ?%elem_of_nil|].
  intros [->|?]%elem_of_cons; auto.
Qed.

Lemma terminated_cons x a :
  0 ≤ x → terminated (x :: a) = terminated a.
Proof.
  intros Hx. unfold terminated. simpl.
  by destruct (Z.ltb_spec x 0); [lia|].
Qed.

Lemma visited_before_sentinel ids t id :
  id ∈ visited ids t → id ∈ before_sentinel ids.
Proof.
  induction ids as [|x ids IH]; simpl; [done|].
  destruct (Z.ltb_spec x 0); simpl; [done|].
  destruct (x =? t); [by intros ?%elem_of_nil|].
  intros [->|?]%elem_of_cons; [left|right; auto].
Qed.

(** Case split on the cell under the cursor of a sentinel walk: either it
    is the sentinel, or the walk goes on in a still terminated rest. *)
Ltac sentinel_cases id Hterm :=
  let Hid := fresh "Hid" in
  destruct (Z.ltb_spec id 0) as [Hid|Hid];
  [|rewrite terminated_cons in Hterm by done];
  simpl in *;
  [rewrite ?(proj2 (Z.ltb_lt _ _) Hid) in *
  |rewrite ?(proj2 (Z.ltb_ge _ _) Hid) in *];
  simpl in *.

(** ** The loops over the stamp arrays *)

Lemma refresh_loop_total w facts i (stamps : list Z) :
  terminated facts = true →
  (i + length (before_sentinel facts) ≤ length stamps)%nat →
  refresh_loop w facts i stamps
  = Some (take i stamps ++ map (fact_stamp w) (before_sentinel facts)
          ++ drop (i + length (before_sentinel facts)) stamps).
Proof.
  revert i stamps.
  induction facts as [|id facts IH]; intros i stamps Hterm Hlen; [done|].
  sentinel_cases id Hterm.
  - by rewrite Nat.add_0_r, take_drop.
  - destruct (Nat.ltb_spec i (length stamps)); [|lia].
    rewrite IH by (rewrite ?length_insert; done || lia).
    f_equal.
    rewrite (take_S_r _ _ (fact_stamp w id))
      by (by apply list_lookup_insert_eq).
    rewrite take_insert_ge by done.
    rewrite drop_insert_lt by lia.
    rewrite <- app_assoc. simpl. by rewrite Nat.add_succ_r.
Qed.

Lemma restore_loop_total facts i idx buf (stamps vs : list Z) :
  terminated facts = true →
  length vs = length (before_sentinel facts) →
  (i + length vs ≤ length stamps)%nat →
  (∀ k v, vs !! k = Some v → buf_read buf (idx + Z.of_nat k) = Some v) →
  restore_loop facts i idx buf stamps
  = Some (take i stamps ++ vs ++ drop (i + length vs) stamps).
Proof.
  revert i idx stamps vs.
  induction facts as [|id facts IH]; intros i idx stamps vs Hterm Hvs Hlen Hbuf;
    [done|].
  sentinel_cases id Hterm.
  - destruct vs; [|done]. simpl. by rewrite Nat.add_0_r, take_drop.
  - destruct vs as [|v vs]; [done|]. simpl in *.
    specialize (Hbuf 0%nat v eq_refl) as Hv. rewrite Z.add_0_r in Hv.
    rewrite Hv. simpl.
    destruct (Nat.ltb_spec i (length stamps)); [|lia].
    rewrite (IH _ _ _ vs); rewrite ?length_insert; [|done|lia|lia|].
    + f_equal.
      rewrite (take_S_r _ _ v) by (by apply list_lookup_insert_eq).
      rewrite take_insert_ge by done.
      rewrite drop_insert_lt by lia.
      rewrite <- app_assoc. simpl. by rewrite Nat.add_succ_r.
    + intros k v' Hk. specialize (Hbuf (S k) v' Hk).
      rewrite <- Hbuf. f_equal. lia.
Qed.

Lemma save_loop_total facts (stamps : list Z) i idx buf :
  terminated facts = true →
  (i + length (before_sentinel facts) ≤ length stamps)%nat →
  0 ≤ idx →
  idx + Z.of_nat (length (before_sentinel facts)) ≤ buf_size buf →
  ∃ buf',
    save_loop facts stamps i idx buf = Some buf'
    ∧ buf_size buf' = buf_size buf
    ∧ (∀ k, (k < length (before_sentinel facts))%nat →
            buf_cells buf' !! (idx + Z.of_nat k) = stamps !! (i + k)%nat)
    ∧ (∀ j, j < idx ∨ idx + Z.of_nat (length (before_sentinel facts)) ≤ j →
            buf_cells buf' !! j = buf_cells buf !! j).
Proof.
  revert i idx buf.
  induction facts as [|id facts IH]; intros i idx buf Hterm Hlen Hidx Hsize;
    [done|].
  sentinel_cases id Hterm.
  - exists buf. split_and!; [done|done| |done]. intros k Hk. lia.
  - destruct (lookup_lt_is_Some_2 stamps i) as [s Hs]; [lia|].
    rewrite Hs. simpl. unfold buf_write.
    destruct (Z.leb_spec 0 idx); [|lia].
    destruct (Z.ltb_spec idx (buf_size buf)); [|lia]. simpl.
    destruct (IH (S i) (idx + 1)
                (mk_buf (buf_size buf) (<[idx:=s]> (buf_cells buf))))
      as (buf' & Hsave & Hsz & Hin & Hout); simpl; [done|lia|lia|lia|].
    exists buf'. split_and!; [done|done| |].
    + intros [|k] Hk.
      * rewrite Hout by lia. simpl.
        rewrite Z.add_0_r, Nat.add_0_r, lookup_insert_eq. done.
      * replace (idx + Z.of_nat (S k)) with (idx + 1 + Z.of_nat k) by lia.
        rewrite Hin by lia. f_equal. lia.
    + intros j Hj. rewrite Hout by lia. simpl.
      rewrite lookup_insert_ne by lia. done.
Qed.

Lemma facts_newer_total w facts (stamps : list Z) i :
  terminated facts = true →
  (i + length (before_sentinel facts) ≤ length stamps)%nat →
  ∃ b, facts_newer w facts stamps i = Some b
       ∧ (b = true ↔
          ∃ k id s, before_sentinel facts !! k = Some id
                    ∧ stamps !! (i + k)%nat = Some s
                    ∧ s < fact_stamp w id).
Proof.
  revert i.
  induction facts as [|id facts IH]; intros i Hterm Hlen; [done|].
  sentinel_cases id Hterm.
  - exists false. split; [done|]. split; [done|].
    by intros (k & ? & ? & ? & _).
  - destruct (lookup_lt_is_Some_2 stamps i) as [s Hs]; [lia|].
    rewrite Hs. simpl.
    destruct (Z.ltb_spec s (fact_stamp w id)) as [Hlt|Hge].
    + exists true. split; [done|]. split; [|done]. intros _.
      exists 0%nat, id, s. by rewrite Nat.add_0_r.
    + destruct (IH (S i)) as (b & Hb & Hiff); [done|lia|].
      exists b. split; [done|]. rewrite Hiff. split.
      * intros (k & id' & s' & Hk & Hs' & Hlt).
        exists (S k), id', s'. split_and!; [done| |done].
        by rewrite Nat.add_succ_r.
      * intros ([|k] & id' & s' & Hk & Hs' & Hlt); simpl in *.
        -- rewrite Nat.add_0_r in Hs'. simplify_eq. lia.
        -- exists k, id', s'. split_and!; [done| |done].
           by rewrite Nat.add_succ_r in Hs'.
Qed.

(** ** Well-formed resolvers and frames *)

Lemma target_at_Some (r : resolver) id tg :
  target_at r id = Some tg →
  0 ≤ id < ntarget r ∧ targets r !! Z.to_nat id = Some tg.
Proof.
  unfold target_at, ntarget. destruct (Z.leb_spec 0 id); [|done].
  intros Hl. split; [|done]. apply lookup_lt_Some in Hl. lia.
Qed.

Lemma target_at_in_range (r : resolver) id :
  0 ≤ id < ntarget r → is_Some (target_at r id).
Proof.
  unfold target_at, ntarget. intros Hid.
  destruct (Z.leb_spec 0 id); [|lia].
  apply lookup_lt_is_Some_2. lia.
Qed.

Lemma wf_resolver_nfact (r : resolver) :
  wf_resolver r = true → 0 ≤ nfact r ∧ ntarget r * nfact r ≤ INT_MAX.
Proof.
  unfold wf_resolver. rewrite !andb_true_iff. intros [[_ ?] ?]. lia.
Qed.

Lemma wf_target_at (r : resolver) id tg :
  wf_resolver r = true → target_at r id = Some tg → wf_target r tg = true.
Proof.
  unfold wf_resolver. rewrite !andb_true_iff. intros [[Hall _] _] Hat.
  apply target_at_Some in Hat as [_ Hat].
  rewrite forallb_forall in Hall. apply Hall.
  apply list_elem_of_In. by eapply list_elem_of_lookup_2.
Qed.

Lemma wf_facts_tracked nf (tg : target) :
  wf_facts nf tg = true → 0 ≤ nf →
  (length (tracked tg) ≤ length (fact_stamps tg))%nat
  ∧ Z.of_nat (length (tracked tg)) ≤ nf
  ∧ ∀ a, update_facts tg = Some a → terminated a = true.
Proof.
  unfold wf_facts, tracked. destruct (update_facts tg) as [a|].
  - rewrite !andb_true_iff. intros [[? ?%Nat.leb_le] ?%Z.leb_le] _.
    split_and!; [done|done|]. by intros ? [= <-].
  - intros _ ?. simpl. split_and!; [lia|lia|done].
Qed.

Lemma wf_order_ids n (tg : target) :
  wf_order n tg = true →
  ∃ ids, update_targets tg = Some ids
         ∧ terminated ids = true
         ∧ ∀ id, id ∈ before_sentinel ids → 0 ≤ id < n.
Proof.
  unfold wf_order. destruct (update_targets tg) as [ids|]; [|done].
  rewrite andb_true_iff, forallb_forall. intros [Hterm Hall].
  exists ids. split_and!; [done|done|]. intros id Hid. split.
  - by eapply before_sentinel_nonneg.
  - apply Z.ltb_lt, Hall. by apply list_elem_of_In.
Qed.

Lemma same_but_stamps_refl (tg : target) : same_but_stamps tg tg.
Proof. by destruct tg. Qed.

Lemma same_but_stamps_fields (tg0 tg : target) :
  same_but_stamps tg0 tg →
  name tg = name tg0 ∧ update_facts tg = update_facts tg0
  ∧ update_targets tg = update_targets tg0 ∧ script tg = script tg0
  ∧ stamp tg = stamp tg0 ∧ tracked tg = tracked tg0.
Proof.
  intros [Heq _]. unfold tracked. rewrite Heq. by destruct tg0.
Qed.

Lemma same_but_stamps_trans (tg0 tg1 tg2 : target) :
  same_but_stamps tg0 tg1 → same_but_stamps tg1 tg2 →
  same_but_stamps tg0 tg2.
Proof.
  intros H01 H12.
  destruct (same_but_stamps_fields _ _ H01) as (_ & _ & _ & _ & _ & Htr).
  destruct H01 as (E1 & L1 & D1), H12 as (E2 & L2 & D2).
  rewrite Htr in D2. split_and!; [|congruence|congruence].
  rewrite E2, E1. by destruct tg0.
Qed.

Lemma frame_refl (r : resolver) : frame r r.
Proof.
  split_and!; [done|done|]. apply Forall2_same_length_lookup_2; [done|].
  intros i x y ? ?. simplify_eq. apply same_but_stamps_refl.
Qed.

Lemma frame_trans (r0 r1 r2 : resolver) :
  frame r0 r1 → frame r1 r2 → frame r0 r2.
Proof.
  intros (N1 & A1 & F1) (N2 & A2 & F2).
  split_and!; [congruence|congruence|].
  eapply Forall2_trans; [|done..]. apply same_but_stamps_trans.
Qed.

Lemma frame_ntarget (r0 r : resolver) : frame r0 r → ntarget r = ntarget r0.
Proof.
  intros (_ & _ & F). unfold ntarget. by rewrite (Forall2_length _ _ _ F).
Qed.

Lemma frame_target_at (r0 r : resolver) id tg0 :
  frame r0 r → target_at r0 id = Some tg0 →
  ∃ tg, target_at r id = Some tg ∧ same_but_stamps tg0 tg.
Proof.
  intros (_ & _ & F). unfold target_at.
  destruct (0 <=? id); [|done]. intros Hl.
  destruct (Forall2_lookup_l _ _ _ _ _ F Hl) as (tg & ? & ?). eauto.
Qed.

Lemma frame_target_at_r (r0 r : resolver) id tg :
  frame r0 r → target_at r id = Some tg →
  ∃ tg0, target_at r0 id = Some tg0 ∧ same_but_stamps tg0 tg.
Proof.
  intros (_ & _ & F). unfold target_at.
  destruct (0 <=? id); [|done]. intros Hl.
  destruct (Forall2_lookup_r _ _ _ _ _ F Hl) as (tg0 & ? & ?). eauto.
Qed.

Lemma frame_wf (r0 r : resolver) :
  frame r0 r → wf_resolver r0 = true → wf_resolver r = true.
Proof.
  intros Hfr Hwf. pose proof (frame_ntarget _ _ Hfr) as Hn.
  pose proof Hfr as (Hnf & _ & F).
  unfold wf_resolver in *. rewrite Hn, Hnf.
  rewrite !andb_true_iff in *. destruct Hwf as [[Hall ?] ?].
  split_and!; [|done|done].
  rewrite forallb_forall in *. intros tg [i Hi]%list_elem_of_In%list_elem_of_lookup.
  destruct (Forall2_lookup_r _ _ _ _ _ F Hi) as (tg0 & Hi0 & Hsame).
  assert (wf_target r0 tg0 = true) as Hwf0.
  { apply Hall, list_elem_of_In. by eapply list_elem_of_lookup_2. }
  destruct (same_but_stamps_fields _ _ Hsame) as (_ & Huf & Hut & _ & _ & _).
  destruct Hsame as (_ & Hlen & _).
  unfold wf_target, wf_facts, wf_order in *.
  by rewrite Hn, Hnf, Huf, Hut, Hlen.
Qed.

Lemma with_fact_stamps_id (tg : target) :
  with_fact_stamps tg (fact_stamps tg) = tg.
Proof. by destruct tg. Qed.

Lemma set_fact_stamps_id (r : resolver) id tg :
  target_at r id = Some tg → set_fact_stamps r id tg (fact_stamps tg) = r.
Proof.
  intros [_ Hl]%target_at_Some. unfold set_fact_stamps, with_targets.
  rewrite with_fact_stamps_id, list_insert_id by done. by destruct r.
Qed.

Lemma set_fact_stamps_frame (r : resolver) id tg fs :
  target_at r id = Some tg →
  length fs = length (fact_stamps tg) →
  drop (length (tracked tg)) fs
  = drop (length (tracked tg)) (fact_stamps tg) →
  frame r (set_fact_stamps r id tg fs).
Proof.
  intros [_ Hl]%target_at_Some Hlen Hdrop.
  split_and!; [done|done|]. simpl.
  rewrite <- (list_insert_id (targets r) (Z.to_nat id) tg) at 1 by done.
  apply Forall2_insert.
  - apply Forall2_same_length_lookup_2; [done|].
    intros i x y ? ?. simplify_eq. apply same_but_stamps_refl.
  - split_and!; [by destruct tg|done|done].
Qed.

Lemma target_at_set_fact_stamps (r : resolver) id tg fs id' :
  target_at r id = Some tg →
  target_at (set_fact_stamps r id tg fs) id'
  = if decide (id' = id) then Some (with_fact_stamps tg fs)
    else target_at r id'.
Proof.
  intros [Hid Hl]%target_at_Some. unfold target_at. simpl.
  case_decide as Heq.
  - subst. destruct (Z.leb_spec 0 id); [|lia].
    apply list_lookup_insert_eq. by eapply lookup_lt_Some.
  - destruct (Z.leb_spec 0 id'); [|done].
    apply list_lookup_insert_ne. lia.
Qed.

(** ** Refreshing the stamps of one target *)

Lemma update_target_stamps_refreshed w (r : resolver) id tg :
  wf_resolver r = true → target_at r id = Some tg →
  update_target_stamps w r id = refreshed w r id.
Proof.
  intros Hwf Hat. unfold update_target_stamps, refreshed. rewrite Hat. simpl.
  pose proof (wf_target_at _ _ _ Hwf Hat) as [Hf _]%andb_true_iff.
  destruct (wf_resolver_nfact _ Hwf) as [Hnf _].
  destruct (wf_facts_tracked _ _ Hf Hnf) as (Hlen & _ & Hterm).
  unfold synced_stamps, tracked in *.
  destruct (update_facts tg) as [a|].
  - rewrite refresh_loop_total by (auto; simpl; lia). done.
  - simpl. by rewrite drop_0, set_fact_stamps_id.
Qed.

Lemma refreshed_frame w (r r' : resolver) id :
  wf_resolver r = true → refreshed w r id = Some r' → frame r r'.
Proof.
  intros Hwf. unfold refreshed.
  destruct (target_at r id) as [tg|] eqn:Hat; [|done]. simpl. intros [= <-].
  pose proof (wf_target_at _ _ _ Hwf Hat) as [Hf _]%andb_true_iff.
  destruct (wf_resolver_nfact _ Hwf) as [Hnf _].
  destruct (wf_facts_tracked _ _ Hf Hnf) as (Hlen & _ & _).
  apply set_fact_stamps_frame; [done|..]; unfold synced_stamps.
  - rewrite length_app, length_map, length_drop. lia.
  - by rewrite drop_app_length' by (by rewrite length_map).
Qed.

(** ** The staleness predicates return *)

Lemma older_than_facts_total w (r : resolver) id :
  wf_resolver r = true → 0 ≤ id < ntarget r →
  is_Some (older_than_facts w r id).
Proof.
  intros Hwf [tg Hat]%target_at_in_range.
  unfold older_than_facts. rewrite Hat. simpl.
  pose proof (wf_target_at _ _ _ Hwf Hat) as [Hf _]%andb_true_iff.
  destruct (wf_resolver_nfact _ Hwf) as [Hnf _].
  destruct (wf_facts_tracked _ _ Hf Hnf) as (Hlen & _ & Hterm).
  unfold tracked in *. destruct (update_facts tg) as [a|]; [|done].
  destruct (facts_newer_total w a (fact_stamps tg) 0) as (b & -> & _);
    auto.
Qed.

Lemma targets_newer_total (r : resolver) own ids :
  terminated ids = true →
  (∀ id, id ∈ before_sentinel ids → 0 ≤ id < ntarget r) →
  is_Some (targets_newer r own ids).
Proof.
  induction ids as [|id ids IH]; intros Hterm Hin; [done|].
  sentinel_cases id Hterm; [done|].
  destruct (target_at_in_range r id) as [dep ->].
  { apply Hin. left. }
  simpl. destruct (own <? stamp dep); [done|].
  apply IH; [done|]. intros id' ?. apply Hin. by right.
Qed.

Lemma older_than_targets_total (r : resolver) id :
  wf_resolver r = true → 0 ≤ id < ntarget r →
  is_Some (older_than_targets r id).
Proof.
  intros Hwf [tg Hat]%target_at_in_range.
  unfold older_than_targets. rewrite Hat. simpl.
  pose proof (wf_target_at _ _ _ Hwf Hat) as [_ Ho]%andb_true_iff.
  destruct (wf_order_ids _ _ Ho) as (ids & -> & Hterm & Hin). simpl.
  by apply targets_newer_total.
Qed.

Lemma stale_total w (r : resolver) id :
  wf_resolver r = true → 0 ≤ id < ntarget r → is_Some (stale w r id).
Proof.
  intros Hwf Hid. unfold stale.
  destruct (older_than_facts_total w r id Hwf Hid) as [[|] ->]; [done|].
  by apply older_than_targets_total.
Qed.

(** ** Saving and restoring the checkpoint *)

Lemma int_range_slice (r : resolver) id :
  wf_resolver r = true → 0 ≤ id < ntarget r →
  int_range (id * nfact r) = true.
Proof.
  intros [Hnf Hsz]%wf_resolver_nfact Hid. unfold int_range, INT_MIN, INT_MAX in *.
  apply andb_true_iff. split; [apply Z.leb_le|apply Z.leb_le]; nia.
Qed.

Lemma save_fact_stamps_holds (r : resolver) id tg buf :
  wf_resolver r = true → target_at r id = Some tg →
  buf_size buf = ntarget r * nfact r →
  ∃ buf', save_fact_stamps r id buf = Some buf'
          ∧ buf_size buf' = buf_size buf
          ∧ buf_holds r buf' id
          ∧ ∀ id2, buf_holds r buf id2 → buf_holds r buf' id2.
Proof.
  intros Hwf Hat Hsize. unfold save_fact_stamps. rewrite Hat. simpl.
  pose proof (wf_target_at _ _ _ Hwf Hat) as [Hf _]%andb_true_iff.
  destruct (wf_resolver_nfact _ Hwf) as [Hnf Hmax].
  destruct (wf_facts_tracked _ _ Hf Hnf) as (Hlen & Hn & Hterm).
  destruct (target_at_Some _ _ _ Hat) as [Hid _].
  destruct (update_facts tg) as [a|] eqn:Huf.
  - rewrite int_range_slice by done.
    assert (tracked tg = before_sentinel a) as Htr
      by (unfold tracked; by rewrite Huf).
    rewrite Htr in *.
    destruct (save_loop_total a (fact_stamps tg) 0 (id * nfact r) buf)
      as (buf' & -> & Hsz & Hin & Hout); [auto|simpl; lia|nia|nia|].
    assert (buf_holds r buf' id) as Hholds.
    { intros tg' k Hat' Hk. simplify_eq. rewrite Htr in Hk.
      unfold buf_read. rewrite Hsz, Hsize.
      destruct (Z.leb_spec 0 (id * nfact r + Z.of_nat k)); [|nia].
      destruct (Z.ltb_spec (id * nfact r + Z.of_nat k)
                           (ntarget r * nfact r)); [|nia].
      simpl. by rewrite Hin. }
    exists buf'. split_and!; [done|done|done|].
    intros id2 Hold. destruct (decide (id2 = id)) as [->|Hne]; [done|].
    intros tg2 k Hat2 Hk. rewrite <- (Hold tg2 k Hat2 Hk).
    unfold buf_read. rewrite Hsz.
    destruct (_ && _); [|done]. apply Hout.
    pose proof (wf_target_at _ _ _ Hwf Hat2) as [Hf2 _]%andb_true_iff.
    destruct (wf_facts_tracked _ _ Hf2 Hnf) as (_ & Hn2 & _).
    destruct (target_at_Some _ _ _ Hat2) as [Hid2 _]. nia.
  - exists buf. split_and!; [done|done| |done].
    intros tg' k Hat' Hk. simplify_eq. unfold tracked in Hk.
    rewrite Huf in Hk. simpl in Hk. lia.
Qed.

Lemma save_targets_loop_holds (r : resolver) ids buf :
  wf_resolver r = true →
  terminated ids = true →
  (∀ id, id ∈ before_sentinel ids → 0 ≤ id < ntarget r) →
  buf_size buf = ntarget r * nfact r →
  ∃ buf', save_targets_loop r ids buf = Some buf'
          ∧ ∀ id, id ∈ before_sentinel ids ∨ buf_holds r buf id →
                  buf_holds r buf' id.
Proof.
  intros Hwf. revert buf.
  induction ids as [|id ids IH]; intros buf Hterm Hin Hsize; [done|].
  sentinel_cases id Hterm.
  - exists buf. split; [done|]. by intros id' [?%elem_of_nil|?].
  - destruct (target_at_in_range r id) as [tg Hat]; [apply Hin; left|].
    destruct (save_fact_stamps_holds r id tg buf)
      as (buf1 & -> & Hsz1 & Hholds & Hkeep); [done..|]. simpl.
    destruct (IH buf1) as (buf' & -> & Hall);
      [done|by intros; apply Hin; right|congruence|].
    exists buf'. split; [done|].
    intros id' [[->|?]%elem_of_cons|?]; apply Hall; auto.
Qed.

Lemma save_target_stamps_holds (r : resolver) t :
  wf_resolver r = true → 0 ≤ t < ntarget r →
  ∃ buf, save_target_stamps r t (buf_new (ntarget r * nfact r)) = Some buf
         ∧ ∀ id, id ∈ closure r t → buf_holds r buf id.
Proof.
  intros Hwf [tg Hat]%target_at_in_range.
  unfold save_target_stamps, closure. rewrite Hat. simpl.
  pose proof (wf_target_at _ _ _ Hwf Hat) as [_ Ho]%andb_true_iff.
  destruct (wf_order_ids _ _ Ho) as (ids & -> & Hterm & Hin). simpl.
  destruct (save_targets_loop_holds r ids (buf_new (ntarget r * nfact r)))
    as (buf & -> & Hall); [done..|].
  exists buf. split; [done|]. intros id ?. apply Hall. by left.
Qed.

Lemma restore_fact_stamps_exact (r0 r : resolver) id tg0 buf :
  wf_resolver r0 = true → frame r0 r →
  target_at r0 id = Some tg0 → buf_holds r0 buf id →
  restore_fact_stamps r id buf
  = Some (with_targets r (<[Z.to_nat id := tg0]> (targets r))).
Proof.
  intros Hwf Hfr Hat0 Hholds.
  destruct (frame_target_at _ _ _ _ Hfr Hat0) as (tg & Hat & Hsame).
  destruct (same_but_stamps_fields _ _ Hsame) as (_ & Huf & _ & _ & _ & Htr).
  destruct Hsame as (Heq & Hlen & Hdrop).
  pose proof (wf_target_at _ _ _ Hwf Hat0) as [Hf _]%andb_true_iff.
  destruct (wf_resolver_nfact _ Hwf) as [Hnf Hmax].
  destruct (wf_facts_tracked _ _ Hf Hnf) as (Hlen0 & Hn & Hterm).
  destruct (target_at_Some _ _ _ Hat0) as [Hid _].
  destruct (target_at_Some _ _ _ Hat) as [_ Hl].
  pose proof Hfr as (Hnfact & _ & _).
  unfold restore_fact_stamps. rewrite Hat. simpl. rewrite Huf, Hnfact.
  destruct (update_facts tg0) as [a|] eqn:Huf0.
  - rewrite int_range_slice by done.
    assert (tracked tg0 = before_sentinel a) as Htr0
      by (unfold tracked; by rewrite Huf0).
    rewrite Htr0 in *.
    rewrite (restore_loop_total a 0 _ buf (fact_stamps tg)
               (take (length (before_sentinel a)) (fact_stamps tg0))).
    + simpl. rewrite length_take, Nat.min_l by done.
      rewrite Hdrop, take_drop. unfold set_fact_stamps.
      do 3 f_equal. rewrite Heq. by destruct tg0.
    + auto.
    + rewrite length_take. lia.
    + rewrite length_take. lia.
    + intros k v [Hk Hv]%lookup_take_Some.
      rewrite (Hholds tg0 k Hat0) by (by rewrite Htr0). done.
  - simpl. unfold tracked in Hdrop. rewrite Huf0 in Hdrop. simpl in Hdrop.
    rewrite !drop_0 in Hdrop. rewrite Hdrop, with_fact_stamps_id in Heq.
    subst tg. rewrite list_insert_id by done. by destruct r.
Qed.

Lemma frame_restored_one (r0 r : resolver) id tg0 :
  frame r0 r → target_at r0 id = Some tg0 →
  frame r0 (with_targets r (<[Z.to_nat id := tg0]> (targets r))).
Proof.
  intros (Hnf & Hau & F) [_ Hl]%target_at_Some.
  split_and!; [done|done|]. simpl.
  rewrite <- (list_insert_id (targets r0) (Z.to_nat id) tg0) at 1 by done.
  apply Forall2_insert; [done|apply same_but_stamps_refl].
Qed.

Lemma restore_targets_loop_exact (r0 r : resolver) ids buf :
  wf_resolver r0 = true → frame r0 r →
  terminated ids = true →
  (∀ id, id ∈ before_sentinel ids → 0 ≤ id < ntarget r0) →
  (∀ id, id ∈ before_sentinel ids → buf_holds r0 buf id) →
  ∃ r', restore_targets_loop r ids buf = Some r'
        ∧ frame r0 r'
        ∧ ∀ id, id ∈ before_sentinel ids
                ∨ target_at r id = target_at r0 id →
                target_at r' id = target_at r0 id.
Proof.
  intros Hwf. revert r.
  induction ids as [|id ids IH]; intros r Hfr Hterm Hin Hbuf; [done|].
  sentinel_cases id Hterm.
  - exists r. split_and!; [done|done|]. by intros id' [?%elem_of_nil|?].
  - destruct (target_at_in_range r0 id) as [tg0 Hat0]; [apply Hin; left|].
    rewrite (restore_fact_stamps_exact r0 r id tg0)
      by (auto; apply Hbuf; left).
    simpl. set (r1 := with_targets r _).
    destruct (IH r1) as (r' & -> & Hfr' & Hall);
      [by apply frame_restored_one|done
      |by intros; apply Hin; right|by intros; apply Hbuf; right|].
    exists r'. split_and!; [done|done|].
    assert (∀ id', id' = id ∨ target_at r id' = target_at r0 id' →
                   target_at r1 id' = target_at r0 id') as Hone.
    { intros id' Hcase. destruct (target_at_Some _ _ _ Hat0) as [Hrng Hl0].
      destruct (frame_target_at _ _ _ _ Hfr Hat0) as (tg & Hat & _).
      destruct (target_at_Some _ _ _ Hat) as [_ Hl].
      unfold target_at, r1. simpl. destruct (Z.leb_spec 0 id'); [|done].
      destruct (decide (id' = id)) as [->|Hne].
      - rewrite list_lookup_insert_eq by (by eapply lookup_lt_Some). done.
      - rewrite list_lookup_insert_ne by lia.
        destruct Hcase as [?|Hsame]; [done|].
        unfold target_at in Hsame.
        by destruct (Z.leb_spec 0 id'); [|lia]. }
    intros id' [[->|?]%elem_of_cons|?]; apply Hall; auto.
Qed.

Lemma restore_target_stamps_exact (r0 r : resolver) t buf :
  wf_resolver r0 = true → frame r0 r → 0 ≤ t < ntarget r0 →
  (∀ id, id ∈ closure r0 t → buf_holds r0 buf id) →
  ∃ r', restore_target_stamps r t buf = Some r'
        ∧ frame r0 r' ∧ rolled_back r0 t r'.
Proof.
  intros Hwf Hfr [tg0 Hat0]%target_at_in_range.
  destruct (frame_target_at _ _ _ _ Hfr Hat0) as (tg & Hat & Hsame).
  destruct (same_but_stamps_fields _ _ Hsame) as (_ & _ & Hut & _).
  unfold restore_target_stamps, rolled_back, closure.
  rewrite Hat, Hat0. simpl. rewrite Hut.
  pose proof (wf_target_at _ _ _ Hwf Hat0) as [_ Ho]%andb_true_iff.
  destruct (wf_order_ids _ _ Ho) as (ids & -> & Hterm & Hin). simpl.
  intros Hbuf.
  destruct (restore_targets_loop_exact r0 r ids buf)
    as (r' & -> & Hfr' & Hall); [done..|].
  exists r'. split_and!; [done|done|]. intros id ?. apply Hall. by left.
Qed.

(** ** The dependency walk and the pass meet their descriptions *)

Lemma execute_script_of_run id tg (s : St) :
  target_at (res s) id = Some tg →
  execute_script_of id s
  = let '(st, w) := mrp_execute_script (script tg) (wld s) in
    Done st (mk_state (res s) w (log s ++ [EvExecute id st w])).
Proof.
  intros Hat. unfold execute_script_of, bind, reading, extern.
  rewrite Hat. simpl. by destruct (mrp_execute_script _ _).
Qed.

Lemma update_target_walk_spec t ids st needs (s : St) :
  wf_resolver (res s) = true →
  terminated ids = true →
  (∀ id, id ∈ before_sentinel ids → 0 ≤ id < ntarget (res s)) →
  ∃ st' needs' s' evs,
    update_target_walk t ids st needs s = Done (st', needs') s'
    ∧ log s' = log s ++ evs
    ∧ walk_spec (visited ids t) (res s) (wld s) st needs evs
                st' needs' (res s') (wld s').
Proof.
  revert st needs s.
  induction ids as [|id ids IH]; intros st needs s Hwf Hterm Hin; [done|].
  sentinel_cases id Hterm.
  { exists st, needs, s, []. rewrite app_nil_r. repeat split. constructor. }
  destruct (Z.eqb_spec id t) as [->|Hne]; simpl.
  { exists st, needs, s, []. rewrite app_nil_r. repeat split. constructor. }
  assert (0 ≤ id < ntarget (res s)) as Hrng by (apply Hin; left).
  destruct (target_at_in_range _ _ Hrng) as [tg Hat].
  destruct (stale_total (wld s) (res s) id Hwf Hrng) as [b Hstale].
  assert ((do older <- reading (λ w r, older_than_facts w r id);
           if older : bool then ret true
           else reading (λ _ r, older_than_targets r id))%comp s
          = Done b s) as Hrun.
  { unfold stale in Hstale. unfold bind, reading, ret.
    destruct (older_than_facts _ _ _) as [[|]|]; simplify_eq; [done|].
    by rewrite Hstale. }
  unfold bind in *. unfold reading at 1.
  unfold reading at 1 in Hrun.
  destruct (older_than_facts (wld s) (res s) id) as [older|] eqn:Hold;
    [|done].
  rewrite Hrun. destruct b.
  - rewrite (execute_script_of_run _ _ _ Hat).
    destruct (mrp_execute_script (script tg) (wld s)) as [st1 w1] eqn:Hexec.
    destruct (Z.leb_spec st1 0) as [Hfail|Hok].
    + eexists st1, true, _, [_]. split_and!; [done|done|]. simpl.
      by eapply walk_failed.
    + unfold writing at 1. simpl.
      rewrite (update_target_stamps_refreshed _ _ _ tg) by done.
      destruct (refreshed w1 (res s) id) as [r1|] eqn:Href;
        [|by unfold refreshed in Href; rewrite Hat in Href].
      pose proof (refreshed_frame _ _ _ _ Hwf Href) as Hfr.
      destruct (IH st1 true
                  (mk_state r1 w1 (log s ++ [EvExecute id st1 w1])))
        as (st' & needs' & s' & evs & -> & Hlog & Hspec); simpl.
      { by eapply frame_wf. }
      { done. }
      { intros id' ?. rewrite (frame_ntarget _ _ Hfr). apply Hin. by right. }
      exists st', needs', s', (EvExecute id st1 w1 :: evs).
      split_and!; [done|by rewrite Hlog; simpl; rewrite <- app_assoc|].
      by eapply walk_updated.
  - destruct (IH st needs s) as (st' & needs' & s' & evs & -> & Hlog & Hspec);
      [done|done|by intros; apply Hin; right|].
    exists st', needs', s', evs. split_and!; [done|done|].
    by eapply walk_fresh.
Qed.

Lemma walk_spec_frame ds (r : resolver) w st needs evs st' needs' r' w' :
  wf_resolver r = true →
  walk_spec ds r w st needs evs st' needs' r' w' → frame r r'.
Proof.
  intros Hwf Hwalk.
  induction Hwalk as [ | | |d ds r w st needs tg st1 w1 r1 evs st' needs' r' w'
                            _ _ _ _ Href _ IH]; auto using frame_refl.
  pose proof (refreshed_frame _ _ _ _ Hwf Href) as Hfr.
  eapply frame_trans; [done|]. apply IH. by eapply frame_wf.
Qed.

Lemma pass_spec_frame t (r : resolver) w evs st r' w' :
  wf_resolver r = true → pass_spec t r w evs st r' w' → frame r r'.
Proof.
  intros Hwf [tg ids needs0 evs1 st1 needs r1 w1 _ _ _ Hwalk _
             |tg ids needs0 evs1 st1 r1 w1 tg1 st2 w2 _ _ _ Hwalk _ _ _ _
             |tg ids needs0 evs1 st1 r1 w1 tg1 st2 w2 r2 _ _ _ Hwalk _ _ _ _
                 Href];
    pose proof (walk_spec_frame _ _ _ _ _ _ _ _ _ _ Hwf Hwalk) as Hfr;
    [done|done|].
  eapply frame_trans; [done|].
  eapply refreshed_frame; [|done]. by eapply frame_wf.
Qed.

Lemma update_target_pass_spec t (s : St) :
  wf_resolver (res s) = true → 0 ≤ t < ntarget (res s) →
  ∃ st s' evs,
    update_target_pass t s = Done st s'
    ∧ log s' = log s ++ evs
    ∧ pass_spec t (res s) (wld s) evs st (res s') (wld s').
Proof.
  intros Hwf Ht.
  destruct (target_at_in_range _ _ Ht) as [tg Hat].
  destruct (older_than_facts_total (wld s) _ _ Hwf Ht) as [needs0 Hold].
  pose proof (wf_target_at _ _ _ Hwf Hat) as [_ Ho]%andb_true_iff.
  destruct (wf_order_ids _ _ Ho) as (ids & Hut & Hterm & Hin).
  destruct (update_target_walk_spec t ids TRUE needs0 s Hwf Hterm Hin)
    as (st & needs & s1 & evs & Hrun & Hlog & Hwalk).
  pose proof (walk_spec_frame _ _ _ _ _ _ _ _ _ _ Hwf Hwalk) as Hfr.
  pose proof (frame_wf _ _ Hfr Hwf) as Hwf1.
  unfold update_target_pass, bind. unfold reading at 1 2.
  rewrite Hold, Hat. simpl. rewrite Hut, Hrun.
  destruct needs; simpl.
  2: { exists st, s1, evs. split_and!; [done|done|].
       eapply pass_walk_only; eauto. }
  destruct (Z.ltb_spec 0 st) as [Hpos|Hneg].
  2: { exists st, s1, evs. split_and!; [done|done|].
       eapply pass_walk_only; eauto. }
  destruct (frame_target_at _ _ _ _ Hfr Hat) as (tg1 & Hat1 & _).
  rewrite (execute_script_of_run _ _ _ Hat1).
  destruct (mrp_execute_script (script tg1) (wld s1)) as [st2 w2] eqn:Hexec.
  destruct (Z.ltb_spec 0 st2) as [Hok|Hfail].
  - unfold writing, ret. simpl.
    rewrite (update_target_stamps_refreshed _ _ _ tg1) by done.
    destruct (refreshed w2 (res s1) t) as [r2|] eqn:Href;
      [|by unfold refreshed in Href; rewrite Hat1 in Href].
    eexists st2, _, (evs ++ [EvExecute t st2 w2]).
    split_and!; [done|by simpl; rewrite Hlog, <- app_assoc|]. simpl.
    eapply pass_own_updated; eauto.
  - eexists st2, _, (evs ++ [EvExecute t st2 w2]).
    split_and!; [done|by simpl; rewrite Hlog, <- app_assoc|]. simpl.
    eapply pass_own_failed; eauto.
Qed.

(** ** [update_target] meets its description *)

Lemma update_target_spec t (s : St) :
  wf_resolver (res s) = true → 0 ≤ t < ntarget (res s) →
  ∃ st s' evs,
    update_target t s = Done st s'
    ∧ log s' = log s ++ evs
    ∧ update_spec t (res s) (wld s) evs st (res s') (wld s').
Proof.
  intros Hwf Ht. unfold update_target, do_start_transaction, bind.
  unfold extern at 1.
  destruct (start_transaction (wld s)) as [tx w1] eqn:Hstart. simpl.
  destruct (Z.eqb_spec tx MQI_HANDLE_INVALID) as [Hinv|Hval].
  { eexists _, _, [EvStart tx]. split_and!; [done|done|]. simpl.
    by apply update_not_opened. }
  destruct (save_target_stamps_holds _ _ Hwf Ht) as (buf & Hsave & Hbuf).
  unfold reading at 1. simpl. rewrite Hsave.
  set (s1 := mk_state (res s) w1 (log s ++ [EvStart tx])).
  destruct (update_target_pass_spec t s1 Hwf Ht)
    as (st & s2 & evs & -> & Hlog & Hpass).
  pose proof (pass_spec_frame _ _ _ _ _ _ _ Hwf Hpass) as Hfr. simpl in *.
  destruct (Z.leb_spec st 0) as [Hfail|Hok].
  - unfold do_rollback_transaction, bind, extern, emit, writing, ret. simpl.
    destruct (restore_target_stamps_exact _ _ t buf Hwf Hfr Ht Hbuf)
      as (r3 & -> & _ & Hback).
    eexists st, _, (EvStart tx :: evs ++ [EvRollback tx]).
    split_and!; [done| |]; simpl.
    + rewrite Hlog, <- !app_assoc. done.
    + by eapply update_rolled_back.
  - unfold do_commit_transaction, bind, extern, emit, writing, ret. simpl.
    destruct (commit_transaction tx (wld s2)) as [[|] w3] eqn:Hcommit; simpl.
    + eexists st, _, (EvStart tx :: evs ++ [EvCommit tx true]).
      split_and!; [done| |]; simpl.
      * rewrite Hlog, <- !app_assoc. done.
      * by eapply update_committed.
    + destruct (restore_target_stamps_exact _ _ t buf Hwf Hfr Ht Hbuf)
        as (r3 & -> & _ & Hback).
      unfold error_status, bind, get_errno, ret. simpl.
      eexists _, _, (EvStart tx :: evs ++ [EvCommit tx false]).
      split_and!; [done| |]; simpl.
      * rewrite Hlog, <- !app_assoc. done.
      * by eapply update_commit_failed.
Qed.

(** ** What the log of a pass looks like *)

Lemma last_default_cons (x d : Z) l :
  default d (last (x :: l)) = default x (last l).
Proof.
  destruct l as [|y l]; [done|]. rewrite last_cons_cons.
  by destruct (proj2 (last_is_Some (y :: l))) as [z ->].
Qed.

Lemma walk_spec_log ds (r : resolver) w st needs evs st' needs' r' w' :
  walk_spec ds r w st needs evs st' needs' r' w' →
  Forall is_execute evs
  ∧ st' = default st (last (exec_statuses evs))
  ∧ (0 < st → (some_exec_failed evs ↔ st' ≤ 0)).
Proof.
  unfold some_exec_failed.
  induction 1 as [r w st needs
                 |d ds r w st needs evs st' needs' r' w' _ _ IH
                 |d ds r w st needs tg st1 w1 _ _ _ Hfail
                 |d ds r w st needs tg st1 w1 r1 evs st' needs' r' w'
                    _ _ _ Hok _ _ (Hall & Hlast & Hiff)].
  - split_and!; [done|done|]. intros ?. split; [|lia].
    by intros (? & ?%elem_of_nil & _).
  - done.
  - split_and!; [constructor; [by eexists|constructor]|done|].
    intros _. split; [done|].
    intros _. exists st1. split; [left|done].
  - split_and!.
    + constructor; [by eexists|done].
    + simpl. by rewrite last_default_cons.
    + intros _. rewrite <- (Hiff Hok). simpl. split.
      * intros (x & [->|?]%elem_of_cons & ?); [lia|eauto].
      * intros (x & ? & ?). exists x. split; [by right|done].
Qed.

Lemma exec_statuses_app (evs1 evs2 : list (event E)) :
  exec_statuses (evs1 ++ evs2) = exec_statuses evs1 ++ exec_statuses evs2.
Proof. apply omap_app. Qed.

Lemma pass_spec_log t (r : resolver) w evs st r' w' :
  pass_spec t r w evs st r' w' →
  Forall is_execute evs
  ∧ st = default TRUE (last (exec_statuses evs))
  ∧ (some_exec_failed evs ↔ st ≤ 0).
Proof.
  assert (0 < TRUE) as Htrue by done.
  intros [tg ids needs0 evs1 st1 needs r1 w1 _ _ _ Hwalk _
         |tg ids needs0 evs1 st1 r1 w1 tg1 st2 w2 _ _ _ Hwalk Hpos _ _ Hfail
         |tg ids needs0 evs1 st1 r1 w1 tg1 st2 w2 r2 _ _ _ Hwalk Hpos _ _ Hok
            _];
    destruct (walk_spec_log _ _ _ _ _ _ _ _ _ _ Hwalk)
      as (Hall & Hlast & Hiff); specialize (Hiff Htrue).
  - done.
  - split_and!.
    + apply Forall_app. split; [done|].
      constructor; [by eexists|constructor].
    + rewrite exec_statuses_app. simpl. by rewrite last_snoc.
    + split; [done|]. intros _. exists st2. split; [|done].
      rewrite exec_statuses_app. apply elem_of_app. right. left.
  - split_and!.
    + apply Forall_app. split; [done|].
      constructor; [by eexists|constructor].
    + rewrite exec_statuses_app. simpl. by rewrite last_snoc.
    + unfold some_exec_failed in *. rewrite exec_statuses_app. split; [|lia].
      intros (x & [?|[->|?%elem_of_nil]%elem_of_cons]%elem_of_app & ?);
        [|lia|done].
      assert (st1 ≤ 0) by (apply Hiff; eauto). lia.
Qed.

(** The calls of one request: the opening, the executions of the pass,
    and at most one closing call. *)
Lemma exec_statuses_bracket (e1 e2 : event E) evs :
  exec_status e1 = None → exec_status e2 = None →
  exec_statuses (e1 :: evs ++ [e2]) = exec_statuses evs.
Proof.
  intros H1 H2. unfold exec_statuses. simpl. rewrite H1, omap_app. simpl.
  by rewrite H2, app_nil_r.
Qed.

Lemma elem_of_bracket (e e1 e2 : event E) evs :
  Forall is_execute evs → exec_status e = None →
  e ∈ e1 :: evs ++ [e2] ↔ e = e1 ∨ e = e2.
Proof.
  intros Hall He. rewrite elem_of_cons, elem_of_app, list_elem_of_singleton.
  split; [|tauto]. intros [?|[Hin|?]]; [tauto| |tauto].
  rewrite Forall_forall in Hall. apply Hall in Hin as [? Hin]. congruence.
Qed.

Lemma rolled_back_refl (r : resolver) t : rolled_back r t r.
Proof. by intros id _. Qed.

(** What the log of a request tells about its outcome. *)
Lemma update_spec_outcome t (r : resolver) w evs st r' w' :
  update_spec t r w evs st r' w' →
  (rollback_called evs ↔ some_exec_failed evs)
  ∧ (some_exec_failed evs ∨ commit_failed evs → rolled_back r t r')
  ∧ (commit_failed evs → ¬ rollback_called evs ∧ st = store_error w')
  ∧ (committed evs →
     0 < st ∧ st = default TRUE (last (exec_statuses evs))
     ∧ ¬ some_exec_failed evs
     ∧ ∃ tx w1 w2 evs1,
         evs = EvStart tx :: evs1 ++ [EvCommit tx true]
         ∧ start_transaction w = (tx, w1)
         ∧ pass_spec t r w1 evs1 st r' w2)
  ∧ (some_exec_failed evs → st ≤ 0 ∧ last (exec_statuses evs) = Some st).
Proof.
  assert (∀ (l : list Z) z, (∃ x, x ∈ l ∧ x ≤ 0) →
                          ∀ d, z = default d (last l) → last l = Some z)
    as Hlast_failed.
  { intros l z (x & Hx & _) d ->. destruct l as [|y l]; [by apply elem_of_nil in Hx|].
    by destruct (proj2 (last_is_Some (y :: l))) as [z ->]. }
  unfold rollback_called, commit_failed, committed, some_exec_failed.
  intros [tx w1 Hstart Hinv
         |tx w1 evs1 st1 r2 w2 r3 Hstart Hval Hpass Hfail Hback
         |tx w1 evs1 st1 r2 w2 w3 Hstart Hval Hpass Hok Hcommit
         |tx w1 evs1 st1 r2 w2 w3 r3 Hstart Hval Hpass Hok Hcommit Hback].
  - split_and!.
    + split.
      * by intros (? & [?|?%elem_of_nil]%elem_of_cons).
      * by intros (? & ?%elem_of_nil & _).
    + intros _. apply rolled_back_refl.
    + by intros (? & [?|?%elem_of_nil]%elem_of_cons).
    + by intros (? & [?|?%elem_of_nil]%elem_of_cons).
    + by intros (? & ?%elem_of_nil & _).
  - destruct (pass_spec_log _ _ _ _ _ _ _ Hpass) as (Hall & Hlast & Hiff).
    rewrite exec_statuses_bracket by done.
    split_and!.
    + split; [intros _; by apply Hiff|]. intros _. exists tx.
      apply elem_of_bracket; auto.
    + done.
    + intros (tx' & [?|?]%elem_of_bracket); done.
    + intros (tx' & [?|?]%elem_of_bracket); done.
    + intros Hex. split; [done|]. by eapply Hlast_failed.
  - destruct (pass_spec_log _ _ _ _ _ _ _ Hpass) as (Hall & Hlast & Hiff).
    rewrite exec_statuses_bracket by done.
    assert (¬ ∃ st0, st0 ∈ exec_statuses evs1 ∧ st0 ≤ 0) as Hnone
      by (rewrite Hiff; lia).
    split_and!.
    + split; [|done]. intros (tx' & [?|?]%elem_of_bracket); done.
    + intros [?|(tx' & [?|?]%elem_of_bracket)]; done.
    + intros (tx' & [?|?]%elem_of_bracket); done.
    + intros _. split_and!; [done|done|done|]. by eexists _, _, _, _.
    + done.
  - destruct (pass_spec_log _ _ _ _ _ _ _ Hpass) as (Hall & Hlast & Hiff).
    rewrite exec_statuses_bracket by done.
    assert (¬ ∃ st0, st0 ∈ exec_statuses evs1 ∧ st0 ≤ 0) as Hnone
      by (rewrite Hiff; lia).
    split_and!.
    + split; [|done]. intros (tx' & [?|?]%elem_of_bracket); done.
    + done.
    + intros _. split; [|done].
      intros (tx' & [?|?]%elem_of_bracket); done.
    + intros (tx' & [?|?]%elem_of_bracket); done.
    + done.
Qed.

(** ** Stamps after a successful pass *)

Lemma refreshed_other w (r r1 : resolver) d x :
  refreshed w r d = Some r1 → x ≠ d → target_at r1 x = target_at r x.
Proof.
  unfold refreshed. destruct (target_at r d) as [tg|] eqn:Hat; [|done].
  simpl. intros [= <-] Hne.
  rewrite (target_at_set_fact_stamps _ _ _ _ _ Hat). by case_decide.
Qed.

Lemma refreshed_synced w (r r1 : resolver) d :
  refreshed w r d = Some r1 → synced r1 d w.
Proof.
  unfold refreshed. destruct (target_at r d) as [tg|] eqn:Hat; [|done].
  simpl. intros [= <-]. exists (with_fact_stamps tg (synced_stamps w tg)).
  rewrite (target_at_set_fact_stamps _ _ _ _ _ Hat).
  case_decide; [|done]. split; [done|].
  assert (tracked (with_fact_stamps tg (synced_stamps w tg)) = tracked tg)
    as -> by done.
  simpl. unfold synced_stamps.
  by rewrite take_app_length' by (by rewrite length_map).
Qed.

Lemma exec_worlds_cons x d st w (evs : list (event E)) :
  exec_worlds x (EvExecute d st w :: evs)
  = (if d =? x then [w] else []) ++ exec_worlds x evs.
Proof. unfold exec_worlds. simpl. by destruct (d =? x). Qed.

Lemma exec_worlds_snoc x d st w (evs : list (event E)) :
  exec_worlds x (evs ++ [EvExecute d st w])
  = exec_worlds x evs ++ (if d =? x then [w] else []).
Proof. unfold exec_worlds. rewrite omap_app. simpl. by destruct (d =? x). Qed.

Lemma exec_worlds_bracket x (e1 e2 : event E) evs :
  exec_status e1 = None → exec_status e2 = None →
  exec_worlds x (e1 :: evs ++ [e2]) = exec_worlds x evs.
Proof.
  intros H1 H2. unfold exec_worlds. simpl. rewrite omap_app.
  destruct e1, e2; simplify_eq; simpl; by rewrite app_nil_r.
Qed.

Lemma walk_spec_untouched ds (r : resolver) w st needs evs st' needs' r' w' x :
  walk_spec ds r w st needs evs st' needs' r' w' →
  exec_worlds x evs = [] → target_at r' x = target_at r x.
Proof.
  induction 1 as [ | | |d ds r w st needs tg st1 w1 r1 evs st' needs' r' w'
                        _ _ _ _ Href _ IH]; [done|done|done|].
  rewrite exec_worlds_cons. destruct (Z.eqb_spec d x); [done|].
  simpl. intros Hnil. rewrite (IH Hnil). by eapply refreshed_other.
Qed.

Lemma walk_spec_synced ds (r : resolver) w st needs evs st' needs' r' w' x wx :
  walk_spec ds r w st needs evs st' needs' r' w' →
  0 < st' →
  last (exec_worlds x evs) = Some wx → synced r' x wx.
Proof.
  induction 1 as [ | |d ds r w st needs tg st1 w1 _ _ _ Hfail
                 |d ds r w st needs tg st1 w1 r1 evs st' needs' r' w'
                    _ _ _ _ Href Hwalk IH]; [done|done|lia|].
  intros Hpos. rewrite exec_worlds_cons.
  destruct (exec_worlds x evs) as [|w0 l] eqn:Hl.
  - rewrite app_nil_r. destruct (Z.eqb_spec d x) as [->|]; [|done].
    intros [= <-]. destruct (refreshed_synced _ _ _ _ Href) as (tg1 & Hat1 & ?).
    exists tg1. split; [|done].
    by rewrite (walk_spec_untouched _ _ _ _ _ _ _ _ _ _ x Hwalk Hl).
  - rewrite last_app. destruct (last (w0 :: l)) eqn:Hlast.
    + intros [= <-]. by apply IH.
    + by apply last_None in Hlast.
Qed.

Lemma pass_spec_synced t (r : resolver) w evs st r' w' x wx :
  pass_spec t r w evs st r' w' →
  0 < st →
  last (exec_worlds x evs) = Some wx → synced r' x wx.
Proof.
  intros [tg ids needs0 evs1 st1 needs r1 w1 _ _ _ Hwalk _
         |tg ids needs0 evs1 st1 r1 w1 tg1 st2 w2 _ _ _ Hwalk _ _ _ Hfail
         |tg ids needs0 evs1 st1 r1 w1 tg1 st2 w2 r2 _ _ _ Hwalk Hpos1 _ _ _
            Href] Hpos.
  - by eapply walk_spec_synced.
  - lia.
  - rewrite exec_worlds_snoc. destruct (Z.eqb_spec t x) as [->|Hne].
    + rewrite last_snoc. intros [= <-]. by eapply refreshed_synced.
    + rewrite app_nil_r. intros Hlast.
      destruct (walk_spec_synced _ _ _ _ _ _ _ _ _ _ x wx Hwalk Hpos1 Hlast)
        as (tgx & Hat & ?).
      exists tgx. split; [|done].
      by rewrite (refreshed_other _ _ _ _ x Href).
Qed.

Lemma frame_stamp (r0 r : resolver) id tg0 :
  frame r0 r → target_at r0 id = Some tg0 →
  ∃ tg, target_at r id = Some tg ∧ stamp tg = stamp tg0.
Proof.
  intros Hfr Hat0.
  destruct (frame_target_at _ _ _ _ Hfr Hat0) as (tg & Hat & Hsame).
  exists tg. split; [done|].
  by destruct (same_but_stamps_fields _ _ Hsame) as (_ & _ & _ & _ & ? & _).
Qed.

(** ** Computations only add to the log *)

Lemma grows_ret {A} (a : A) : grows (ret a : M St A).
Proof. intros s. exists []. by rewrite app_nil_r. Qed.

Lemma grows_fault {A} : grows (Fault : M St A).
Proof. intros s. exists []. by rewrite app_nil_r. Qed.

Lemma grows_bind {A B} (m : M St A) (k : A → M St B) :
  grows m → (∀ a, grows (k a)) → grows (bind m k).
Proof.
  intros Hm Hk s. unfold bind. destruct (Hm s) as [evs1 H1].
  destruct (m s) as [a s1|s1]; simpl in *.
  - destruct (Hk a s1) as [evs2 H2]. exists (evs1 ++ evs2).
    by rewrite H2, H1, app_assoc.
  - by exists evs1.
Qed.

Lemma grows_reading {A} (f : world E → resolver → option A) :
  grows (reading f).
Proof.
  intros s. exists []. unfold reading. rewrite app_nil_r.
  by destruct (f _ _).
Qed.

Lemma grows_writing (f : world E → resolver → option resolver) :
  grows (writing f).
Proof.
  intros s. exists []. unfold writing. rewrite app_nil_r.
  by destruct (f _ _).
Qed.

Lemma grows_extern {A} (f : world E → A * world E) :
  grows (extern f : M St A).
Proof.
  intros s. exists []. unfold extern. rewrite app_nil_r.
  by destruct (f _).
Qed.

Lemma grows_emit (e : event E) : grows (emit e : M St unit).
Proof. intros s. by exists [e]. Qed.

Lemma grows_execute_script_of id : grows (execute_script_of id).
Proof.
  unfold execute_script_of.
  apply grows_bind; [apply grows_reading|]. intros tg.
  apply grows_bind; [apply grows_extern|]. intros st s. by eexists [_].
Qed.

Lemma grows_error_status : grows (error_status : M St Z).
Proof.
  unfold error_status. apply grows_bind; [|intros; apply grows_ret].
  intros s. exists []. by rewrite app_nil_r.
Qed.

Lemma grows_update_target_walk t ids st needs :
  grows (update_target_walk t ids st needs).
Proof.
  revert st needs.
  induction ids as [|id ids IH]; intros st needs; [apply grows_fault|].
  simpl. destruct (id <? 0); [apply grows_ret|].
  destruct (id =? t); [apply grows_ret|].
  apply grows_bind; [apply grows_reading|]. intros older.
  apply grows_bind.
  { destruct older; [apply grows_ret|apply grows_reading]. }
  intros [|]; [|apply IH].
  apply grows_bind; [apply grows_execute_script_of|]. intros st1.
  destruct (st1 <=? 0); [apply grows_ret|].
  apply grows_bind; [apply grows_writing|]. intros _. apply IH.
Qed.

Lemma grows_update_target_pass t : grows (update_target_pass t).
Proof.
  unfold update_target_pass.
  apply grows_bind; [apply grows_reading|]. intros needs.
  apply grows_bind; [apply grows_reading|]. intros ids.
  apply grows_bind; [apply grows_update_target_walk|]. intros [st needs'].
  destruct (_ && _); [|apply grows_ret].
  apply grows_bind; [apply grows_execute_script_of|]. intros st1.
  destruct (0 <? st1); [|apply grows_ret].
  apply grows_bind; [apply grows_writing|]. intros _. apply grows_ret.
Qed.

Lemma do_start_transaction_run (s : St) :
  do_start_transaction s
  = Done (start_transaction (wld s)).1
         (mk_state (res s) (start_transaction (wld s)).2
                   (log s ++ [EvStart (start_transaction (wld s)).1])).
Proof.
  unfold do_start_transaction, bind, extern, emit, ret.
  by destruct (start_transaction (wld s)).
Qed.

(** Whatever happens next, [update_target] first opens a transaction. *)
Lemma update_target_opens t (s : St) :
  ∃ evs, log (final_state (update_target t s))
         = log s ++ EvStart (start_transaction (wld s)).1 :: evs.
Proof.
  unfold update_target. unfold bind at 1.
  rewrite do_start_transaction_run.
  lazymatch goal with
  | |- ∃ evs, log (final_state (?m ?s1)) = _ =>
      assert (grows m) as Hrest; [|destruct (Hrest s1) as [evs Hevs]]
  end.
  { destruct (_ =? _); [apply grows_error_status|].
    apply grows_bind; [apply grows_reading|]. intros stamps.
    apply grows_bind; [apply grows_update_target_pass|]. intros st.
    destruct (st <=? 0).
    - apply grows_bind.
      { apply grows_bind; [apply grows_extern|intros; apply grows_emit]. }
      intros _. apply grows_bind; [apply grows_writing|].
      intros _. apply grows_ret.
    - apply grows_bind.
      { apply grows_bind; [apply grows_extern|]. intros ok.
        apply grows_bind; [apply grows_emit|intros; apply grows_ret]. }
      intros [|]; [apply grows_ret|].
      apply grows_bind; [apply grows_writing|].
      intros _. apply grows_error_status. }
  exists evs. rewrite Hevs. simpl. by rewrite <- app_assoc.
Qed.

Lemma update_target_scan_miss (ts : list target) i nm (s : St) :
  (∀ tg, tg ∈ ts → name tg ≠ nm) →
  update_target_scan ts i nm s = Done FALSE s.
Proof.
  revert i. induction ts as [|tg ts IH]; intros i Hmiss; [done|].
  simpl. destruct (String.eqb_spec (name tg) nm) as [Heq|_].
  - exfalso. by apply (Hmiss tg); [left|].
  - apply IH. intros tg' ?. apply Hmiss. by right.
Qed.

(** ** Building the target table *)

Lemma create_target_facts_run deps (s : St) :
  ∃ ok s', create_target_facts deps s = Done ok s'
           ∧ targets (res s') = targets (res s)
           ∧ auto_update (res s') = auto_update (res s).
Proof.
  revert s. induction deps as [|d deps IH]; intros s; simpl.
  { by exists true, s. }
  destruct (is_fact_name d); [|apply IH].
  unfold bind, do_create_fact.
  destruct (create_fact d (nfact (res s)) (wld s)) as [[[|] nf] w'].
  - match goal with |- context [create_target_facts deps ?s1] =>
      destruct (IH s1) as (ok & s' & -> & ? & ?) end.
    by exists ok, s'.
  - by eexists false, _.
Qed.

Lemma set_script_run t sc (s : St) tg :
  target_at (res s) t = Some tg →
  ∃ s', set_script t sc s = Done tt s'
        ∧ map name (targets (res s')) = map name (targets (res s))
        ∧ auto_update (res s') = auto_update (res s)
        ∧ wld s' = wld s.
Proof.
  intros Hat. unfold set_script, writing. rewrite Hat. simpl.
  eexists. split_and!; [done| |done|done]. simpl.
  apply target_at_Some in Hat as [_ Hl].
  rewrite list_fmap_insert. simpl. apply list_insert_id.
  by rewrite list_lookup_fmap, Hl.
Qed.

Lemma create_targets_loop_run pts wanted auto (s : St) :
  ∃ found s',
    create_targets_loop pts wanted auto s = Done found s'
    ∧ auto_update (res s') = auto_update (res s)
    ∧ ∀ a, found = Some a →
           map name (targets (res s'))
           = map name (targets (res s)) ++ map pt_name pts
           ∧ match wanted with
             | None => a = auto
             | Some nm =>
                 a = auto ∧ nm ∉ map pt_name pts
                 ∨ ntarget (res s) ≤ a
                   ∧ map pt_name pts !! Z.to_nat (a - ntarget (res s))
                     = Some nm
             end.
Proof.
  revert auto s. induction pts as [|pt pts IH]; intros auto s.
  { exists (Some auto), s. split_and!; [done|done|].
    intros a [= <-]. rewrite app_nil_r. split; [done|].
    destruct wanted; [left; split; [done|apply not_elem_of_nil]|done]. }
  cbn [create_targets_loop]. unfold bind at 1. unfold extern at 1.
  destruct (mrp_reallocz (wld s)) as [[|] w1]; simpl;
    [|by eexists None, _].
  unfold bind at 1. unfold append_target at 1. simpl.
  set (t := ntarget (res s)).
  set (tg := mk_target (pt_name pt) (pt_depends pt) None None [] None 0).
  set (s2 := mk_state (with_targets (res s) (targets (res s) ++ [tg]))
                      w1 (log s)).
  assert (target_at (res s2) t = Some tg) as Hat2.
  { unfold target_at, t, ntarget. simpl.
    destruct (Z.leb_spec 0 (Z.of_nat (length (targets (res s))))); [|lia].
    rewrite Nat2Z.id. by rewrite lookup_app_r, Nat.sub_diag. }
  assert (∃ bound s3,
    match script_source pt with
    | Some src =>
        (do sc <- extern (mrp_create_script (script_type pt) src);
         set_script t sc;;; ret (bool_decide (sc ≠ None)))%comp
    | None => ret true
    end s2 = Done bound s3
    ∧ map name (targets (res s3)) = map name (targets (res s2))
    ∧ auto_update (res s3) = auto_update (res s2))
    as (bound & s3 & Hbind & Hnames3 & Hauto3).
  { destruct (script_source pt) as [src|]; [|by eexists true, s2].
    unfold bind at 1 2. unfold extern at 1.
    destruct (mrp_create_script (script_type pt) src (wld s2)) as [sc w2].
    edestruct (set_script_run t sc (mk_state (res s2) w2 (log s2)))
      as (s3 & -> & ? & ? & _); [done|].
    by eexists _, s3. }
  unfold bind at 1. rewrite Hbind.
  destruct bound; simpl; [|by eexists None, _; rewrite Hauto3].
  unfold bind at 1.
  destruct (create_target_facts_run (pt_depends pt) s3)
    as (known & s4 & -> & Htargets4 & Hauto4).
  destruct known; simpl; [|by eexists None, _; rewrite Hauto4, Hauto3].
  set (auto' := match wanted with
                | Some nm => if String.eqb nm (pt_name pt) then t else auto
                | None => auto
                end).
  destruct (IH auto' s4) as (found & s' & -> & Hauto & Hfound).
  exists found, s'. split_and!; [done|by rewrite Hauto, Hauto4, Hauto3|].
  intros a Ha. destruct (Hfound a Ha) as [Hnames Hwanted].
  assert (ntarget (res s4) = t + 1) as Hn4.
  { unfold ntarget. rewrite Htargets4, <- (length_map name), Hnames3.
    rewrite length_map. simpl. rewrite length_app. simpl. unfold t, ntarget.
    lia. }
  split.
  { rewrite Hnames, Htargets4, Hnames3. simpl.
    by rewrite map_app, <- app_assoc. }
  rewrite Hn4 in Hwanted. unfold auto' in Hwanted. fold t.
  destruct wanted as [nm|]; [|done]. simpl.
  assert (∀ a, t + 1 ≤ a →
          Z.to_nat (a - t) = S (Z.to_nat (a - (t + 1)))) as Hidx by lia.
  destruct (String.eqb_spec nm (pt_name pt)) as [->|Hne].
  - right. destruct Hwanted as [[-> _]|[Hle Hl]].
    + split; [lia|]. by rewrite Z.sub_diag.
    + split; [lia|]. by rewrite Hidx.
  - destruct Hwanted as [[-> Hnot]|[Hle Hl]].
    + left. split; [done|]. by apply not_elem_of_cons.
    + right. split; [lia|]. by rewrite Hidx.
Qed.

(** * The claims *)

(** C1. Rollback restores exactly. On a well-formed resolver
    [update_target] returns; and when its pass failed, because an executed
    procedure returned a status [≤ 0] or because the commit failed, then
    every target listed in the update order of the subject has, after the
    call, the very record it had before it, and so each of its
    [fact_stamps] entries: whatever [update_target_stamps] wrote during the
    pass has been undone. *)
Theorem rollback_restores_stamps t (s : St) :
  wf_resolver (res s) = true → 0 ≤ t < ntarget (res s) →
  ∃ st s' evs,
    update_target t s = Done st s'
    ∧ log s' = log s ++ evs
    ∧ (some_exec_failed evs ∨ commit_failed evs →
       ∀ id tg, id ∈ closure (res s) t → target_at (res s) id = Some tg →
                ∃ tg', target_at (res s') id = Some tg'
                       ∧ fact_stamps tg' = fact_stamps tg).
Proof.
  intros Hwf Ht.
  destruct (update_target_spec t s Hwf Ht) as (st & s' & evs & Hrun & Hlog & Hspec).
  exists st, s', evs. split_and!; [done|done|].
  intros Hfailed id tg Hid Hat.
  destruct (update_spec_outcome _ _ _ _ _ _ _ Hspec) as (_ & Hback & _).
  exists tg. by rewrite (Hback Hfailed id Hid).
Qed.



(** C5, as the code has it. The status of a request that committed is
    positive: it is [TRUE] when no procedure was executed and the status of
    the last procedure executed otherwise, so its value does not tell the
    two apart. When a procedure failed, the status is the one that
    procedure returned, which is [≤ 0]; when the commit failed it is the
    status made from [errno]. *)
Theorem status_of_update_target t (s : St) :
  wf_resolver (res s) = true → 0 ≤ t < ntarget (res s) →
  ∃ st s' evs,
    update_target t s = Done st s'
    ∧ log s' = log s ++ evs
    ∧ (committed evs →
       0 < st ∧ st = default TRUE (last (exec_statuses evs)))
    ∧ (some_exec_failed evs →
       st ≤ 0 ∧ last (exec_statuses evs) = Some st)
    ∧ (commit_failed evs → st = store_error (wld s')).
Proof.
  intros Hwf Ht.
  destruct (update_target_spec t s Hwf Ht)
    as (st & s' & evs & Hrun & Hlog & Hspec).
  destruct (update_spec_outcome _ _ _ _ _ _ _ Hspec)
    as (_ & _ & Hcf & Hok & Hfail).
  exists st, s', evs. split_and!; [done|done| |done|].
  - intros Hc. by destruct (Hok Hc) as (? & ? & _).
  - intros Hc. by destruct (Hcf Hc).
Qed.

(** C4, as the code has it. After a request that committed, the own
    [stamp] of every target is what it was before the request: the pass
    never writes it. The fact stamps of every target whose procedure was
    executed are, at each tracked position, the stamps the facts had when
    the last execution of that procedure returned. *)
Theorem committed_pass_stamps t (s : St) :
  wf_resolver (res s) = true → 0 ≤ t < ntarget (res s) →
  ∃ st s' evs,
    update_target t s = Done st s'
    ∧ log s' = log s ++ evs
    ∧ (committed evs →
       (∀ id tg, target_at (res s) id = Some tg →
                 ∃ tg', target_at (res s') id = Some tg'
                        ∧ stamp tg' = stamp tg)
       ∧ (∀ x wx, last (exec_worlds x evs) = Some wx →
                  synced (res s') x wx)).
Proof.
  intros Hwf Ht.
  destruct (update_target_spec t s Hwf Ht)
    as (st & s' & evs & Hrun & Hlog & Hspec).
  destruct (update_spec_outcome _ _ _ _ _ _ _ Hspec) as (_ & _ & _ & Hok & _).
  exists st, s', evs. split_and!; [done|done|].
  intros Hc.
  destruct (Hok Hc) as (Hpos & _ & _ & tx & w1 & w2 & evs1 & -> & _ & Hpass).
  split.
  - intros id tg Hat. eapply frame_stamp; [|done].
    by eapply pass_spec_frame.
  - intros x wx. rewrite exec_worlds_bracket by done.
    by eapply pass_spec_synced.
Qed.

(** C3. [older_than_facts]. A target without [update_facts] is always
    older than its facts. A target with [update_facts] is older exactly
    when, at some position before the sentinel, the current stamp of the
    tracked fact is greater than the stamp cached at that position. *)
Theorem older_than_facts_characterised w (r : resolver) t tg :
  target_at r t = Some tg →
  (update_facts tg = None → older_than_facts w r t = Some true)
  ∧ (∀ a, update_facts tg = Some a →
          terminated a = true →
          (length (before_sentinel a) ≤ length (fact_stamps tg))%nat →
          ∃ b, older_than_facts w r t = Some b
               ∧ (b = true ↔
                  ∃ k id cached, before_sentinel a !! k = Some id
                                 ∧ fact_stamps tg !! k = Some cached
                                 ∧ cached < fact_stamp w id)).
Proof.
  intros Hat. unfold older_than_facts. rewrite Hat. simpl. split.
  - by intros ->.
  - intros a -> Hterm Hlen.
    by apply (facts_newer_total w a (fact_stamps tg) 0).
Qed.

(** C7. [autoupdate_target]. Without a designated target it returns [TRUE]
    and leaves the resolver, the world and the log as they were; with one,
    it is the by-name update of the resolver on the name of that target. *)
Theorem autoupdate_target_delegates (upd : string → M St Z) (s : St) :
  (auto_update (res s) = None → autoupdate_target upd s = Done TRUE s)
  ∧ (∀ a tg, auto_update (res s) = Some a →
             target_at (res s) a = Some tg →
             autoupdate_target upd s = upd (name tg) s).
Proof.
  unfold autoupdate_target. split.
  - by intros ->.
  - intros a tg -> Hat. unfold bind, reading. by rewrite Hat.
Qed.

(** C8. A request that cannot be resolved changes nothing. The by-name
    update on a name no target has, and the by-id update on an index not
    below [ntarget], return [FALSE] in the state they were called in: no
    transaction was opened, no procedure executed, no stamp written. *)
Theorem unresolved_update_changes_nothing (s : St) :
  (∀ nm, (∀ tg, tg ∈ targets (res s) → name tg ≠ nm) →
         update_target_by_name nm s = Done FALSE s)
  ∧ (∀ id, ntarget (res s) ≤ id → update_target_by_id id s = Done FALSE s).
Proof.
  split.
  - intros nm Hmiss. by apply update_target_scan_miss.
  - intros id Hid. unfold update_target_by_id.
    by destruct (Z.ltb_spec id (ntarget (res s))); [lia|].
Qed.

(** C9. The bounds check of [update_target_by_id] has no lower bound. The
    call is turned away, returning [FALSE] and touching nothing, exactly
    when [id ≥ ntarget]. Every smaller index, the negative ones included,
    goes on to [update_target], which opens a transaction; for a negative
    index on an opened transaction the first access to the record then
    leaves the target array. *)
Theorem update_target_by_id_lower_bound id (s : St) :
  (update_target_by_id id s = Done FALSE s ↔ ntarget (res s) ≤ id)
  ∧ (id < 0 →
     update_target_by_id id s = update_target id s
     ∧ ∀ tx w1, start_transaction (wld s) = (tx, w1) →
                tx ≠ MQI_HANDLE_INVALID →
                update_target id s
                = Fault (mk_state (res s) w1 (log s ++ [EvStart tx]))).
Proof.
  unfold update_target_by_id. split.
  - destruct (Z.ltb_spec id (ntarget (res s))) as [Hlt|Hge]; [|done].
    split; [|lia]. intros Hrun.
    destruct (update_target_opens id s) as [evs Hlog].
    rewrite Hrun in Hlog. simpl in Hlog.
    rewrite <- (app_nil_r (log s)) in Hlog at 1.
    by apply app_inv_head in Hlog.
  - intros Hneg. assert (0 ≤ ntarget (res s)) by (unfold ntarget; lia).
    destruct (Z.ltb_spec id (ntarget (res s))); [|lia]. split; [done|].
    intros tx w1 Hstart Hval.
    unfold update_target, do_start_transaction, bind, extern, emit, ret.
    rewrite Hstart. simpl.
    destruct (Z.eqb_spec tx MQI_HANDLE_INVALID); [done|].
    unfold reading, save_target_stamps, target_at. simpl.
    by destruct (Z.leb_spec 0 id); [lia|].
Qed.


End Properties.

(** * The claims on the concrete store *)

Import Demo.

(** The failing pass of the example: [a] ran and had its stamp refreshed to
    2, then [b] failed; afterwards both records are what they were. *)
Example failing_pass_is_undone :
  ∃ s', update_target 1 failing = Done 0 s'
        ∧ res s' = res failing
        ∧ exec_statuses (log s') = [1; 0].
Proof. eexists. by split_and!. Qed.

Lemma rollback_restores_stamps_witness :
  wf_resolver (res failing) = true
  ∧ 0 ≤ 1 < ntarget (res failing)
  ∧ ∃ st s' evs,
      update_target 1 failing = Done st s'
      ∧ log s' = log failing ++ evs
      ∧ (some_exec_failed evs ∨ commit_failed evs →
         ∀ id tg, id ∈ closure (res failing) 1 →
                  target_at (res failing) id = Some tg →
                  ∃ tg', target_at (res s') id = Some tg'
                         ∧ fact_stamps tg' = fact_stamps tg).
Proof.
  split; [reflexivity|]. split; [vm_compute; split; congruence|].
  apply (rollback_restores_stamps 1 failing);
    [reflexivity|vm_compute; split; congruence].
Defined.


Lemma older_than_facts_characterised_witness :
  target_at (res behind) 0
  = Some (tgt "c" (Some [0; -1]) [0; -1] [0] (Some (Return 1)))
  ∧ older_than_facts (wld behind) (res behind) 0 = Some true
  ∧ older_than_facts (wld fresh) (res fresh) 0 = Some false.
Proof.
  split; [reflexivity|].
  destruct (older_than_facts_characterised (wld behind) (res behind) 0
              (tgt "c" (Some [0; -1]) [0; -1] [0] (Some (Return 1)))
              eq_refl) as [_ Hsome].
  destruct (Hsome [0; -1] eq_refl eq_refl) as (b & Hb & _);
    [simpl; lia|].
  split; [|reflexivity]. rewrite Hb. vm_compute in Hb. congruence.
Defined.

(** C4 fails as stated: after a pass in which both procedures ran and the
    store committed, the own stamp of the subject is what it was. *)
Lemma own_stamp_is_not_bumped :
  ∃ s', update_target 1 succeeding = Done 3 s'
        ∧ committed (log s')
        ∧ exec_statuses (log s') = [1; 3]
        ∧ ∃ tg tg', target_at (res succeeding) 1 = Some tg
                    ∧ target_at (res s') 1 = Some tg'
                    ∧ ¬ stamp tg < stamp tg'.
Proof.
  eexists. split; [reflexivity|]. split_and!.
  - exists 1. simpl. set_solver.
  - reflexivity.
  - eexists _, _. split_and!; [reflexivity|reflexivity|]. simpl. lia.
Qed.

Lemma committed_pass_stamps_witness :
  wf_resolver (res succeeding) = true
  ∧ 0 ≤ 1 < ntarget (res succeeding)
  ∧ ∃ st s' evs,
      update_target 1 succeeding = Done st s'
      ∧ log s' = log succeeding ++ evs
      ∧ (committed evs →
         (∀ id tg, target_at (res succeeding) id = Some tg →
                   ∃ tg', target_at (res s') id = Some tg'
                          ∧ stamp tg' = stamp tg)
         ∧ (∀ x wx, last (exec_worlds x evs) = Some wx →
                    synced (res s') x wx)).
Proof.
  split; [reflexivity|]. split; [vm_compute; split; congruence|].
  apply (committed_pass_stamps 1 succeeding);
    [reflexivity|vm_compute; split; congruence].
Defined.

(** C5 fails as stated: a request in which nothing ran and a request in
    which a procedure ran and succeeded return the same status. *)
Lemma status_does_not_tell_whether_anything_ran :
  ∃ s1 s2,
    update_target 0 fresh = Done TRUE s1
    ∧ committed (log s1) ∧ exec_statuses (log s1) = []
    ∧ update_target 0 behind = Done TRUE s2
    ∧ committed (log s2) ∧ exec_statuses (log s2) = [1].
Proof.
  eexists _, _. split_and!; try reflexivity.
  - exists 1. simpl. set_solver.
  - exists 1. simpl. set_solver.
Qed.

Lemma status_of_update_target_witness :
  wf_resolver (res behind) = true
  ∧ 0 ≤ 0 < ntarget (res behind)
  ∧ ∃ st s' evs,
      update_target 0 behind = Done st s'
      ∧ log s' = log behind ++ evs
      ∧ (committed evs →
         0 < st ∧ st = default TRUE (last (exec_statuses evs)))
      ∧ (some_exec_failed evs →
         st ≤ 0 ∧ last (exec_statuses evs) = Some st)
      ∧ (commit_failed evs → st = store_error (wld s')).
Proof.
  split; [reflexivity|]. split; [vm_compute; split; congruence|].
  apply (status_of_update_target 0 behind);
    [reflexivity|vm_compute; split; congruence].
Defined.


(** The three ways of [create_targets] on two declarations [a] and [b]. *)
Example create_targets_finds_b :
  ∃ s', create_targets (two_declarations (Some "b")) (st0 [] 0 [] true)
        = Done 0 s'
        ∧ auto_update (res s') = Some 1.
Proof. eexists. by split. Qed.

Example create_targets_misses_c :
  ∃ s', create_targets (two_declarations (Some "c")) (st0 [] 0 [] true)
        = Done (-1) s'
        ∧ errno (wld s') = ENOENT
        ∧ auto_update (res s') = None.
Proof. eexists. by split_and!. Qed.

Example create_targets_without_auto_update :
  ∃ s', create_targets (two_declarations None) (st0 [] 0 [] true)
        = Done 0 s'
        ∧ auto_update (res s') = None.
Proof. eexists. by split. Qed.

Lemma autoupdate_target_delegates_witness :
  autoupdate_target update_target_by_name failing = Done TRUE failing
  ∧ autoupdate_target update_target_by_name with_auto
    = update_target_by_name "b" with_auto.
Proof.
  destruct (autoupdate_target_delegates update_target_by_name failing)
    as [Hnone _].
  destruct (autoupdate_target_delegates update_target_by_name with_auto)
    as [_ Hsome].
  split; [exact (Hnone eq_refl)|].
  exact (Hsome 1 (sub_b (Return 3)) eq_refl eq_refl).
Defined.

Lemma unresolved_update_changes_nothing_witness :
  update_target_by_name "missing" failing = Done FALSE failing
  ∧ update_target_by_id 2 failing = Done FALSE failing.
Proof.
  destruct (unresolved_update_changes_nothing failing) as [Hname Hid].
  split.
  - apply Hname. intros tg Htg. simpl in Htg.
    repeat (apply elem_of_cons in Htg as [->|Htg]; [discriminate|]).
    by apply elem_of_nil in Htg.
  - apply Hid. vm_compute. congruence.
Defined.

Lemma update_target_by_id_lower_bound_witness :
  update_target_by_id (-1) failing = update_target (-1) failing
  ∧ update_target (-1) failing
    = Fault (mk_state (res failing) (wld failing) [EvStart 1]).
Proof.
  destruct (update_target_by_id_lower_bound (-1) failing) as [_ Hneg].
  destruct Hneg as [Hgoes Hfault]; [vm_compute; reflexivity|].
  split; [exact Hgoes|].
  apply (Hfault 1 (wld failing)); [reflexivity|vm_compute; congruence].
Defined.


(** The commit that fails in the example: both procedures ran, the stamps
    are back, the status is [-errno], and the log holds no rollback. *)
Example failed_commit_is_not_rolled_back :
  ∃ s', update_target 1 commit_failing = Done (-5) s'
        ∧ res s' = res commit_failing
        ∧ log s' = [EvStart 1;
                    EvExecute 0 1 (mk_world 0 (mk_store [2] false));
                    EvExecute 1 3 (mk_world 0 (mk_store [2] false));
                    EvCommit 1 false].
Proof. eexists. by split_and!. Qed.

(** * Further properties of the target module *)

Section MoreProperties.
Context {E scriptlet : Type} `{Collaborators E scriptlet}.

Local Abbreviation target := (target_t scriptlet).
Local Abbreviation resolver := (mrp_resolver_t scriptlet).
Local Abbreviation St := (state E scriptlet).

(** The case split of a sentinel walk, as in the first part. *)
Ltac at_cursor id Hterm :=
  let Hid := fresh "Hid" in
  destruct (Z.ltb_spec id 0) as [Hid|Hid];
  [|rewrite terminated_cons in Hterm by done];
  simpl in *;
  [rewrite ?(proj2 (Z.ltb_lt _ _) Hid) in *
  |rewrite ?(proj2 (Z.ltb_ge _ _) Hid) in *];
  simpl in *.

(** ** Restoring what was just saved *)

Lemma with_targets_id (r : resolver) : with_targets r (targets r) = r.
Proof. by destruct r. Qed.

Lemma restore_targets_loop_same (r : resolver) ids buf :
  wf_resolver r = true →
  terminated ids = true →
  (∀ id, id ∈ before_sentinel ids → 0 ≤ id < ntarget r) →
  (∀ id, id ∈ before_sentinel ids → buf_holds r buf id) →
  restore_targets_loop r ids buf = Some r.
Proof.
  intros Hwf.
  induction ids as [|id ids IH]; intros Hterm Hin Hbuf; [done|].
  at_cursor id Hterm; [done|].
  destruct (target_at_in_range r id) as [tg Hat]; [apply Hin; left|].
  rewrite (restore_fact_stamps_exact r r id tg)
    by (auto using frame_refl; apply Hbuf; left).
  simpl. apply target_at_Some in Hat as [_ Hl].
  rewrite list_insert_id, with_targets_id by done.
  apply IH; [done|by intros; apply Hin; right|by intros; apply Hbuf; right].
Qed.

Lemma restore_target_stamps_same (r : resolver) t buf :
  wf_resolver r = true → 0 ≤ t < ntarget r →
  (∀ id, id ∈ closure r t → buf_holds r buf id) →
  restore_target_stamps r t buf = Some r.
Proof.
  intros Hwf [tg Hat]%target_at_in_range.
  unfold restore_target_stamps, closure. rewrite Hat. simpl.
  pose proof (wf_target_at _ _ _ Hwf Hat) as [_ Ho]%andb_true_iff.
  destruct (wf_order_ids _ _ Ho) as (ids & -> & Hterm & Hin). simpl.
  intros Hbuf. by apply restore_targets_loop_same.
Qed.

(** X1. Checkpoint round trip. On a well-formed resolver, saving the
    stamps of the update order of a target and restoring them at once
    gives back the resolver, whole. *)
Theorem save_then_restore_is_identity (r : resolver) t :
  wf_resolver r = true → 0 ≤ t < ntarget r →
  ∃ buf,
    save_target_stamps r t (buf_new (ntarget r * nfact r)) = Some buf
    ∧ restore_target_stamps r t buf = Some r.
Proof.
  intros Hwf Ht.
  destruct (save_target_stamps_holds r t Hwf Ht) as (buf & Hsave & Hbuf).
  exists buf. split; [done|]. by apply restore_target_stamps_same.
Qed.

(** ** [older_than_targets] *)

Lemma targets_newer_spec (r : resolver) own ids :
  terminated ids = true →
  (∀ id, id ∈ before_sentinel ids → 0 ≤ id < ntarget r) →
  ∃ b, targets_newer r own ids = Some b
       ∧ (b = true ↔
          ∃ id dep, id ∈ before_sentinel ids
                    ∧ target_at r id = Some dep ∧ own < stamp dep).
Proof.
  induction ids as [|id ids IH]; intros Hterm Hin; [done|].
  at_cursor id Hterm.
  { exists false. split; [done|]. split; [done|].
    by intros (? & ? & ?%elem_of_nil & _). }
  destruct (target_at_in_range r id) as [dep Hat]; [apply Hin; left|].
  rewrite Hat. simpl.
  destruct (Z.ltb_spec own (stamp dep)) as [Hlt|Hge].
  - exists true. split; [done|]. split; [|done]. intros _.
    exists id, dep. split_and!; [left|done|done].
  - destruct IH as (b & Hb & Hiff); [done|by intros; apply Hin; right|].
    exists b. split; [done|]. rewrite Hiff. split.
    + intros (id' & dep' & ? & ? & ?). exists id', dep'.
      split_and!; [by right|done|done].
    + intros (id' & dep' & [->|?]%elem_of_cons & Hat' & Hlt).
      * simplify_eq. lia.
      * by exists id', dep'.
Qed.

(** X2. [older_than_targets]. For a target whose update order is
    terminated and stays inside the table, [older_than_targets] returns
    true exactly when some target listed before the sentinel has an own
    stamp greater than the target's. *)
Theorem older_than_targets_characterised (r : resolver) t tg ids :
  target_at r t = Some tg →
  update_targets tg = Some ids →
  terminated ids = true →
  (∀ id, id ∈ before_sentinel ids → 0 ≤ id < ntarget r) →
  ∃ b, older_than_targets r t = Some b
       ∧ (b = true ↔
          ∃ id dep, id ∈ before_sentinel ids
                    ∧ target_at r id = Some dep
                    ∧ stamp tg < stamp dep).
Proof.
  intros Hat Hut Hterm Hin. unfold older_than_targets.
  rewrite Hat. simpl. rewrite Hut. simpl. by apply targets_newer_spec.
Qed.

(** ** Refreshing makes fresh *)

(** X3. A refreshed target is fresh. On a well-formed resolver,
    [update_target_stamps] on a target that tracks facts returns, and in
    the world it read the stamps from, [older_than_facts] then answers
    false for that target. *)
Theorem refreshed_target_is_fresh w (r : resolver) t tg facts :
  wf_resolver r = true →
  target_at r t = Some tg →
  update_facts tg = Some facts →
  ∃ r', update_target_stamps w r t = Some r'
        ∧ older_than_facts w r' t = Some false.
Proof.
  intros Hwf Hat Huf.
  rewrite (update_target_stamps_refreshed _ _ _ tg) by done.
  destruct (refreshed w r t) as [r'|] eqn:Href;
    [|by unfold refreshed in Href; rewrite Hat in Href].
  exists r'. split; [done|].
  pose proof (refreshed_frame _ _ _ _ Hwf Href) as Hfr.
  pose proof (frame_wf _ _ Hfr Hwf) as Hwf'.
  destruct (refreshed_synced _ _ _ _ Href) as (tg' & Hat' & Hsync).
  destruct (frame_target_at _ _ _ _ Hfr Hat) as (tg'' & Hat'' & Hsame).
  simplify_eq.
  destruct (same_but_stamps_fields _ _ Hsame) as (_ & Huf' & _).
  rewrite Huf in Huf'.
  pose proof (wf_target_at _ _ _ Hwf' Hat') as [Hf _]%andb_true_iff.
  destruct (wf_resolver_nfact _ Hwf') as [Hnf _].
  destruct (wf_facts_tracked _ _ Hf Hnf) as (Hlen & _ & Hterm).
  unfold tracked in Hsync, Hlen. rewrite Huf' in Hsync, Hlen.
  unfold older_than_facts. rewrite Hat'. simpl. rewrite Huf'.
  destruct (facts_newer_total w facts (fact_stamps tg') 0)
    as (b & -> & Hiff); [by apply Hterm|done|].
  f_equal. destruct b; [|done]. exfalso.
  destruct (proj1 Hiff eq_refl) as (k & id & cached & Hk & Hc & Hlt).
  simpl in Hc.
  assert (take (length (before_sentinel facts)) (fact_stamps tg') !! k
          = Some cached) as Htake.
  { rewrite lookup_take_lt; [done|]. by eapply lookup_lt_Some. }
  rewrite Hsync, list_lookup_fmap, Hk in Htake. simpl in Htake.
  simplify_eq. lia.
Qed.

(** ** What a request leaves of the table *)

Lemma walk_spec_visits ds (r : resolver) w st needs evs st' needs' r' w' x :
  walk_spec ds r w st needs evs st' needs' r' w' →
  x ∉ ds → exec_worlds x evs = [].
Proof.
  induction 1 as [ |d ds r w st needs evs st' needs' r' w' _ _ IH
                 |d ds r w st needs tg st1 w1 _ _ _ _
                 |d ds r w st needs tg st1 w1 r1 evs st' needs' r' w'
                    _ _ _ _ _ _ IH]; intros Hx.
  - done.
  - apply IH. by apply not_elem_of_cons in Hx as [_ ?].
  - apply not_elem_of_cons in Hx as [Hne _].
    rewrite exec_worlds_cons. by destruct (Z.eqb_spec d x).
  - apply not_elem_of_cons in Hx as [Hne Hx].
    rewrite exec_worlds_cons, (IH Hx). by destruct (Z.eqb_spec d x).
Qed.

Lemma walk_spec_needs ds (r : resolver) w st evs st' needs' r' w' :
  walk_spec ds r w st true evs st' needs' r' w' → needs' = true.
Proof.
  remember true as needs eqn:Hn. induction 1; subst; auto.
Qed.

Lemma pass_spec_untouched t (r : resolver) w evs st r' w' tg ids x :
  pass_spec t r w evs st r' w' →
  target_at r t = Some tg → update_targets tg = Some ids →
  x ≠ t → x ∉ visited ids t →
  target_at r' x = target_at r x.
Proof.
  intros [tg0 ids0 needs0 evs1 st1 needs r1 w1 Hat Hut _ Hwalk _
         |tg0 ids0 needs0 evs1 st1 r1 w1 tg1 st2 w2 Hat Hut _ Hwalk _ _ _ _
         |tg0 ids0 needs0 evs1 st1 r1 w1 tg1 st2 w2 r2 Hat Hut _ Hwalk _ _ _ _
            Href] Hat' Hut' Hne Hx; simplify_eq.
  - eapply walk_spec_untouched; [done|]. by eapply walk_spec_visits.
  - eapply walk_spec_untouched; [done|]. by eapply walk_spec_visits.
  - rewrite (refreshed_other _ _ _ _ x Href) by done.
    eapply walk_spec_untouched; [done|]. by eapply walk_spec_visits.
Qed.

Lemma restore_target_stamps_rest (r0 r : resolver) t buf :
  wf_resolver r0 = true → frame r0 r → 0 ≤ t < ntarget r0 →
  (∀ id, id ∈ closure r0 t → buf_holds r0 buf id) →
  ∃ r', restore_target_stamps r t buf = Some r'
        ∧ frame r0 r'
        ∧ ∀ id, id ∈ closure r0 t ∨ target_at r id = target_at r0 id →
                target_at r' id = target_at r0 id.
Proof.
  intros Hwf Hfr [tg0 Hat0]%target_at_in_range.
  destruct (frame_target_at _ _ _ _ Hfr Hat0) as (tg & Hat & Hsame).
  destruct (same_but_stamps_fields _ _ Hsame) as (_ & _ & Hut & _).
  unfold restore_target_stamps, closure.
  rewrite Hat, Hat0. simpl. rewrite Hut.
  pose proof (wf_target_at _ _ _ Hwf Hat0) as [_ Ho]%andb_true_iff.
  destruct (wf_order_ids _ _ Ho) as (ids & -> & Hterm & Hin). simpl.
  intros Hbuf. by apply restore_targets_loop_exact.
Qed.

(** One request, with what it does to the table: the description of
    [update_spec], the frame, and the records it cannot have changed. *)
Lemma update_target_effect t (s : St) :
  wf_resolver (res s) = true → 0 ≤ t < ntarget (res s) →
  ∃ st s' evs,
    update_target t s = Done st s'
    ∧ log s' = log s ++ evs
    ∧ update_spec t (res s) (wld s) evs st (res s') (wld s')
    ∧ frame (res s) (res s')
    ∧ ∀ tg ids x,
        target_at (res s) t = Some tg → update_targets tg = Some ids →
        x ≠ t → x ∉ visited ids t →
        target_at (res s') x = target_at (res s) x.
Proof.
  intros Hwf Ht. unfold update_target, do_start_transaction, bind.
  unfold extern at 1.
  destruct (start_transaction (wld s)) as [tx w1] eqn:Hstart. simpl.
  destruct (Z.eqb_spec tx MQI_HANDLE_INVALID) as [Hinv|Hval].
  { eexists _, _, [EvStart tx]. split_and!; [done|done| | |]; simpl.
    - by apply update_not_opened.
    - apply frame_refl.
    - done. }
  destruct (save_target_stamps_holds _ _ Hwf Ht) as (buf & Hsave & Hbuf).
  unfold reading at 1. simpl. rewrite Hsave.
  set (s1 := mk_state (res s) w1 (log s ++ [EvStart tx])).
  destruct (update_target_pass_spec t s1 Hwf Ht)
    as (st & s2 & evs & -> & Hlog & Hpass).
  pose proof (pass_spec_frame _ _ _ _ _ _ _ Hwf Hpass) as Hfr. simpl in *.
  assert (∀ tg ids x,
            target_at (res s) t = Some tg → update_targets tg = Some ids →
            x ≠ t → x ∉ visited ids t →
            target_at (res s2) x = target_at (res s) x) as Hrest.
  { intros tg ids x ? ? ? ?. by eapply pass_spec_untouched. }
  destruct (Z.leb_spec st 0) as [Hfail|Hok].
  - unfold do_rollback_transaction, bind, extern, emit, writing, ret. simpl.
    destruct (restore_target_stamps_rest _ _ t buf Hwf Hfr Ht Hbuf)
      as (r3 & -> & Hfr3 & Hback).
    eexists st, _, (EvStart tx :: evs ++ [EvRollback tx]).
    split_and!; [done| | |done|]; simpl.
    + rewrite Hlog, <- !app_assoc. done.
    + eapply update_rolled_back; eauto. intros id ?. apply Hback. by left.
    + intros tg ids x ? ? ? ?. apply Hback. right. by eapply Hrest.
  - unfold do_commit_transaction, bind, extern, emit, writing, ret. simpl.
    destruct (commit_transaction tx (wld s2)) as [[|] w3] eqn:Hcommit; simpl.
    + eexists st, _, (EvStart tx :: evs ++ [EvCommit tx true]).
      split_and!; [done| | |done|done]; simpl.
      * rewrite Hlog, <- !app_assoc. done.
      * by eapply update_committed.
    + destruct (restore_target_stamps_rest _ _ t buf Hwf Hfr Ht Hbuf)
        as (r3 & -> & Hfr3 & Hback).
      unfold error_status, bind, get_errno, ret. simpl.
      eexists _, _, (EvStart tx :: evs ++ [EvCommit tx false]).
      split_and!; [done| | |done|]; simpl.
      * rewrite Hlog, <- !app_assoc. done.
      * eapply update_commit_failed; eauto.
        intros id ?. apply Hback. by left.
      * intros tg ids x ? ? ? ?. apply Hback. right. by eapply Hrest.
Qed.

(** X4. A request keeps the table in shape. On a well-formed resolver
    [update_target] returns a resolver that is again well-formed and that
    differs from the one it was given at most in the stamps cached for
    tracked facts: same targets in the same order, same names, update
    orders, scripts and own stamps, same [nfact] and [auto_update]. *)
Theorem update_target_keeps_table_shape t (s : St) :
  wf_resolver (res s) = true → 0 ≤ t < ntarget (res s) →
  ∃ st s',
    update_target t s = Done st s'
    ∧ frame (res s) (res s')
    ∧ wf_resolver (res s') = true.
Proof.
  intros Hwf Ht.
  destruct (update_target_effect t s Hwf Ht)
    as (st & s' & evs & Hrun & _ & _ & Hfr & _).
  exists st, s'. split_and!; [done|done|]. by eapply frame_wf.
Qed.

(** X5. A request touches only what it walks. On a well-formed resolver,
    whatever the outcome of [update_target], every target that is neither
    the subject nor one of the dependencies visited by the walk has
    afterwards the record it had before. *)
Theorem update_target_touches_only_walked t (s : St) tg ids :
  wf_resolver (res s) = true → 0 ≤ t < ntarget (res s) →
  target_at (res s) t = Some tg → update_targets tg = Some ids →
  ∃ st s',
    update_target t s = Done st s'
    ∧ ∀ x, x ≠ t → x ∉ visited ids t →
           target_at (res s') x = target_at (res s) x.
Proof.
  intros Hwf Ht Hat Hut.
  destruct (update_target_effect t s Hwf Ht)
    as (st & s' & evs & Hrun & _ & _ & _ & Hrest).
  exists st, s'. split; [done|]. intros x ? ?. by eapply Hrest.
Qed.

Lemma pass_spec_runs_subject t (r : resolver) w evs st r' w' :
  pass_spec t r w evs st r' w' →
  older_than_facts w r t = Some true →
  some_exec_failed evs ∨ ∃ st2 w2, EvExecute t st2 w2 ∈ evs.
Proof.
  intros Hpass Hold.
  destruct (pass_spec_log _ _ _ _ _ _ _ Hpass) as (_ & _ & Hiff).
  destruct Hpass
    as [tg ids needs0 evs1 st1 needs r1 w1 _ _ Hold0 Hwalk Hcase
       |tg ids needs0 evs1 st1 r1 w1 tg1 st2 w2 _ _ _ _ _ _ _ _
       |tg ids needs0 evs1 st1 r1 w1 tg1 st2 w2 r2 _ _ _ _ _ _ _ _ _].
  - left. apply Hiff. rewrite Hold in Hold0. simplify_eq.
    rewrite (walk_spec_needs _ _ _ _ _ _ _ _ _ Hwalk) in Hcase.
    by destruct Hcase.
  - right. exists st2, w2. apply elem_of_app. right. left.
  - right. exists st2, w2. apply elem_of_app. right. left.
Qed.

(** X6. A target without facts is run on every request. On a well-formed
    resolver, when the subject has no [update_facts] and the transaction
    opens, every request on it either sees a procedure fail or executes
    the subject's own procedure. *)
Theorem subject_without_facts_always_runs t (s : St) tg :
  wf_resolver (res s) = true → 0 ≤ t < ntarget (res s) →
  target_at (res s) t = Some tg → update_facts tg = None →
  (start_transaction (wld s)).1 ≠ MQI_HANDLE_INVALID →
  ∃ st s' evs,
    update_target t s = Done st s'
    ∧ log s' = log s ++ evs
    ∧ (some_exec_failed evs ∨ ∃ st2 w2, EvExecute t st2 w2 ∈ evs).
Proof.
  intros Hwf Ht Hat Huf Hopen.
  destruct (update_target_spec t s Hwf Ht)
    as (st & s' & evs & Hrun & Hlog & Hspec).
  exists st, s', evs. split_and!; [done|done|].
  assert (∀ w, older_than_facts w (res s) t = Some true) as Hold.
  { intros w. unfold older_than_facts. rewrite Hat. simpl. by rewrite Huf. }
  assert (∀ (e1 e2 : event E) evs1,
            exec_status e1 = None → exec_status e2 = None →
            some_exec_failed evs1 ∨ (∃ st2 w2, EvExecute t st2 w2 ∈ evs1) →
            some_exec_failed (e1 :: evs1 ++ [e2])
            ∨ ∃ st2 w2, EvExecute t st2 w2 ∈ e1 :: evs1 ++ [e2]) as Hwrap.
  { intros e1 e2 evs1 H1 H2 [Hf|(st2 & w2 & Hin)].
    - left. unfold some_exec_failed. by rewrite exec_statuses_bracket.
    - right. exists st2, w2. right. apply elem_of_app. by left. }
  destruct Hspec
    as [tx w1 Hstart Hinv
       |tx w1 evs1 st1 r2 w2 r3 Hstart _ Hpass _ _
       |tx w1 evs1 st1 r2 w2 w3 Hstart _ Hpass _ _
       |tx w1 evs1 st1 r2 w2 w3 r3 Hstart _ Hpass _ _ _];
    [by rewrite Hstart in Hopen|..];
    (apply Hwrap; [done|done|by eapply pass_spec_runs_subject]).
Qed.

(** ** A request on a table that is up to date *)

Lemma update_target_walk_fresh t ids st needs (s : St) :
  terminated ids = true →
  (∀ d, d ∈ visited ids t → stale (wld s) (res s) d = Some false) →
  update_target_walk t ids st needs s = Done (st, needs) s.
Proof.
  induction ids as [|id ids IH]; intros Hterm Hfresh; [done|].
  at_cursor id Hterm; [done|].
  destruct (Z.eqb_spec id t) as [->|Hne]; simpl in *; [done|].
  pose proof (Hfresh id ltac:(left)) as Hstale. unfold stale in Hstale.
  unfold bind, reading, ret.
  destruct (older_than_facts (wld s) (res s) id) as [[|]|]; [done| |done].
  rewrite Hstale. apply IH; [done|]. intros d ?. apply Hfresh. by right.
Qed.

Lemma update_target_pass_fresh t tg ids (s : St) :
  target_at (res s) t = Some tg → update_targets tg = Some ids →
  terminated ids = true →
  older_than_facts (wld s) (res s) t = Some false →
  (∀ d, d ∈ visited ids t → stale (wld s) (res s) d = Some false) →
  update_target_pass t s = Done TRUE s.
Proof.
  intros Hat Hut Hterm Hold Hfresh.
  unfold update_target_pass, bind, reading.
  rewrite Hold, Hat. simpl. rewrite Hut.
  by rewrite update_target_walk_fresh.
Qed.

(** X7. Nothing stale, nothing run. On a well-formed resolver, when the
    transaction opens and neither the subject is older than its facts nor
    any visited dependency is stale, [update_target] executes no
    procedure and leaves the resolver as it is; it commits, and returns
    [TRUE] when the commit goes through and the status made from [errno]
    when it does not. *)
Theorem fresh_request_runs_nothing t (s : St) tg ids tx w1 ok w2 :
  wf_resolver (res s) = true → 0 ≤ t < ntarget (res s) →
  target_at (res s) t = Some tg → update_targets tg = Some ids →
  start_transaction (wld s) = (tx, w1) → tx ≠ MQI_HANDLE_INVALID →
  commit_transaction tx w1 = (ok, w2) →
  older_than_facts w1 (res s) t = Some false →
  (∀ d, d ∈ visited ids t → stale w1 (res s) d = Some false) →
  update_target t s
  = Done (if ok then TRUE else store_error w2)
         (mk_state (res s) w2 (log s ++ [EvStart tx; EvCommit tx ok])).
Proof.
  intros Hwf Ht Hat Hut Hstart Hval Hcommit Hold Hfresh.
  pose proof (wf_target_at _ _ _ Hwf Hat) as [_ Ho]%andb_true_iff.
  destruct (wf_order_ids _ _ Ho) as (ids' & Hut' & Hterm & _).
  assert (ids' = ids) as -> by congruence.
  destruct (save_target_stamps_holds _ _ Hwf Ht) as (buf & Hsave & Hbuf).
  unfold update_target, do_start_transaction, bind. unfold extern at 1.
  rewrite Hstart. simpl.
  destruct (Z.eqb_spec tx MQI_HANDLE_INVALID); [done|].
  unfold reading at 1. simpl. rewrite Hsave.
  rewrite (update_target_pass_fresh t tg ids) by done. simpl.
  unfold do_commit_transaction, bind, extern, emit, ret. simpl.
  rewrite Hcommit. simpl. rewrite <- app_assoc. simpl.
  destruct ok; [done|].
  unfold writing. simpl. rewrite restore_target_stamps_same by done.
  done.
Qed.

(** ** Resolving a name *)

Lemma update_target_scan_hit (ts : list target) base nm k tg (s : St) :
  ts !! k = Some tg → name tg = nm →
  (∀ j tg', (j < k)%nat → ts !! j = Some tg' → name tg' ≠ nm) →
  update_target_scan ts base nm s = update_target (base + Z.of_nat k) s.
Proof.
  revert base k. induction ts as [|tg0 ts IH]; intros base k Hk Hname Hfirst;
    [done|].
  simpl. destruct k as [|k]; simpl in Hk.
  - simplify_eq. rewrite String.eqb_refl. by rewrite Z.add_0_r.
  - destruct (String.eqb_spec (name tg0) nm) as [Heq|_].
    { by destruct (Hfirst 0%nat tg0); [lia|done|]. }
    rewrite (IH (base + 1) k); [f_equal; lia|done|done|].
    intros j tg' ? ?. apply (Hfirst (S j)); [lia|done].
Qed.

(** X8. A name resolves to its first target. When the target at index
    [k] has the name asked for and no target before it has, the by-name
    update is [update_target] on index [k]; in particular, where two
    targets share a name, the later one cannot be updated by name. *)
Theorem update_target_by_name_first_match nm k tg (s : St) :
  targets (res s) !! k = Some tg → name tg = nm →
  (∀ j tg', (j < k)%nat → targets (res s) !! j = Some tg' →
            name tg' ≠ nm) →
  update_target_by_name nm s = update_target (Z.of_nat k) s.
Proof.
  intros Hk Hname Hfirst. unfold update_target_by_name.
  by rewrite (update_target_scan_hit _ 0 nm k tg).
Qed.

(** ** The table [create_targets] builds *)

Lemma set_script_table t sc (s : St) tg :
  target_at (res s) t = Some tg →
  set_script t sc s
  = Done tt (mk_state
               (with_targets (res s)
                  (<[Z.to_nat t := mk_target (name tg) (depends tg)
                                     (update_facts tg) (update_targets tg)
                                     (fact_stamps tg) sc (stamp tg)]>
                     (targets (res s))))
               (wld s) (log s)).
Proof. intros Hat. unfold set_script, writing. by rewrite Hat. Qed.

Lemma create_targets_loop_table pts wanted auto (s : St) :
  ∃ found s',
    create_targets_loop pts wanted auto s = Done found s'
    ∧ ∀ a, found = Some a →
           ∃ new,
             targets (res s') = targets (res s) ++ new
             ∧ Forall2 built pts new
             ∧ match wanted with
               | None => a = auto
               | Some nm =>
                   a = auto ∧ nm ∉ map pt_name pts
                   ∨ ∃ k, a = ntarget (res s) + Z.of_nat k
                          ∧ map pt_name pts !! k = Some nm
                          ∧ ∀ j, (k < j)%nat →
                                 map pt_name pts !! j ≠ Some nm
               end.
Proof.
  revert auto s. induction pts as [|pt pts IH]; intros auto s.
  { exists (Some auto), s. split; [done|]. intros a [= <-]. exists [].
    rewrite app_nil_r. split_and!; [done|constructor|].
    destruct wanted; [left; split; [done|apply not_elem_of_nil]|done]. }
  cbn [create_targets_loop]. unfold bind at 1. unfold extern at 1.
  destruct (mrp_reallocz (wld s)) as [[|] w1]; simpl;
    [|by eexists None, _].
  unfold bind at 1. unfold append_target at 1. simpl.
  set (t := ntarget (res s)).
  set (tg := mk_target (pt_name pt) (pt_depends pt) None None [] None 0).
  set (s2 := mk_state (with_targets (res s) (targets (res s) ++ [tg]))
                      w1 (log s)).
  assert (target_at (res s2) t = Some tg) as Hat2.
  { unfold target_at, t, ntarget. simpl.
    destruct (Z.leb_spec 0 (Z.of_nat (length (targets (res s))))); [|lia].
    rewrite Nat2Z.id. by rewrite lookup_app_r, Nat.sub_diag. }
  assert (∃ bound s3 tg3,
    match script_source pt with
    | Some src =>
        (do sc <- extern (mrp_create_script (script_type pt) src);
         set_script t sc;;; ret (bool_decide (sc ≠ None)))%comp
    | None => ret true
    end s2 = Done bound s3
    ∧ targets (res s3) = targets (res s) ++ [tg3]
    ∧ (bound = true → built pt tg3))
    as (bound & s3 & tg3 & Hbind & Htargets3 & Hbuilt3).
  { destruct (script_source pt) as [src|] eqn:Hsrc.
    - unfold bind at 1 2. unfold extern at 1.
      destruct (mrp_create_script (script_type pt) src (wld s2)) as [sc w2].
      rewrite (set_script_table t sc (mk_state (res s2) w2 (log s2)) tg)
        by done.
      eexists _, _, _. split; [done|]. simpl. split.
      + unfold t, ntarget. rewrite Nat2Z.id.
        rewrite <- (Nat.add_0_r (length (targets (res s)))).
        by rewrite insert_app_r.
      + intros Hb%bool_decide_eq_true. unfold built. simpl.
        rewrite Hsrc. split_and!; try done.
        split; [by eexists|]. intros _. by destruct sc.
    - exists true, s2, tg. split_and!; [done|done|]. intros _.
      unfold built. simpl. rewrite Hsrc. split_and!; try done.
      all: split; by intros [? ?]. }
  unfold bind at 1. rewrite Hbind.
  destruct bound; simpl; [|by eexists None, _].
  unfold bind at 1.
  destruct (create_target_facts_run (pt_depends pt) s3)
    as (known & s4 & -> & Htargets4 & _).
  destruct known; simpl; [|by eexists None, _].
  set (auto' := match wanted with
                | Some nm => if String.eqb nm (pt_name pt) then t else auto
                | None => auto
                end).
  destruct (IH auto' s4) as (found & s' & -> & Hfound).
  exists found, s'. split; [done|].
  intros a Ha. destruct (Hfound a Ha) as (new & Htargets & Hall & Hwanted).
  assert (ntarget (res s4) = t + 1) as Hn4.
  { unfold ntarget. rewrite Htargets4, Htargets3, length_app. simpl.
    unfold t, ntarget. lia. }
  exists (tg3 :: new). split_and!.
  { by rewrite Htargets, Htargets4, Htargets3, <- app_assoc. }
  { constructor; auto. }
  rewrite Hn4 in Hwanted. unfold auto' in Hwanted. fold t.
  destruct wanted as [nm|]; [|done]. simpl.
  assert (∀ k, t + 1 + Z.of_nat k = t + Z.of_nat (S k)) as Hidx by lia.
  destruct (String.eqb_spec nm (pt_name pt)) as [->|Hne].
  - right. destruct Hwanted as [[-> Hnot]|(k & -> & Hk & Hlast)].
    + exists 0%nat. split_and!; [lia|done|].
      intros [|j] ? Hj; [lia|]. simpl in Hj. apply Hnot.
      by eapply list_elem_of_lookup_2.
    + exists (S k). split_and!; [lia|done|].
      intros [|j] ?; [lia|]. simpl. apply Hlast. lia.
  - destruct Hwanted as [[-> Hnot]|(k & -> & Hk & Hlast)].
    + left. split; [done|]. by apply not_elem_of_cons.
    + right. exists (S k). split_and!; [lia|done|].
      intros [|j] ?; [lia|]. simpl. apply Hlast. lia.
Qed.

(** One run of [create_targets], with everything the loop lemma gives. *)
Lemma create_targets_run parser (s : St) :
  ∃ st s',
    create_targets parser s = Done st s'
    ∧ (st = 0 ∨ st = -1)
    ∧ (st = 0 ↔
       materialized parser s
       ∧ ∀ nm, p_auto_update parser = Some nm →
               nm ∈ map pt_name (p_targets parser))
    ∧ (st = 0 →
       Forall2 built (p_targets parser) (targets (res s'))
       ∧ match p_auto_update parser with
         | None => auto_update (res s') = auto_update (res s)
         | Some nm =>
             ∃ k, auto_update (res s') = Some (Z.of_nat k)
                  ∧ map pt_name (p_targets parser) !! k = Some nm
                  ∧ ∀ j, (k < j)%nat →
                         map pt_name (p_targets parser) !! j ≠ Some nm
         end).
Proof.
  destruct (create_targets_loop_table (p_targets parser)
              (p_auto_update parser) (-1)
              (mk_state (with_targets (res s) []) (wld s) (log s)))
    as (found & s1 & Hrun & Hfound).
  destruct (create_targets_loop_run (p_targets parser)
              (p_auto_update parser) (-1)
              (mk_state (with_targets (res s) []) (wld s) (log s)))
    as (found' & s1' & Hrun' & Hauto & _).
  rewrite Hrun in Hrun'. injection Hrun' as <- <-. simpl in Hauto.
  unfold create_targets, materialized, bind, reset_targets. rewrite Hrun.
  destruct found as [a|].
  2: { exists (-1), s1. split_and!; [done|by right| |done].
       split; [done|]. by intros [(? & ? & ?) _]. }
  destruct (Hfound a eq_refl) as (new & Htargets & Hall & Hwanted).
  simpl in Htargets. rewrite <- Htargets in Hall.
  unfold ntarget in Hwanted. simpl in Hwanted.
  destruct (p_auto_update parser) as [nm|].
  - destruct Hwanted as [[-> Hnot]|(k & Ha & Hk & Hlast)]; simpl.
    + unfold bind, set_errno, ret. simpl.
      eexists (-1), _. split_and!; [done|by right| |done].
      split; [done|]. intros [_ Hin]. by destruct (Hnot (Hin nm eq_refl)).
    + assert (a = Z.of_nat k) as -> by lia.
      destruct (Z.leb_spec 0 (Z.of_nat k)); [|lia].
      eexists 0, _. split_and!; [done|by left| |].
      * split; [|done]. intros _. split; [by eexists _, _|].
        intros nm' [= <-]. by eapply list_elem_of_lookup_2.
      * intros _. split; [done|]. by exists k.
  - subst a. simpl. exists 0, s1. split_and!; [done|by left| |done].
    split; [|done]. intros _. split; [by eexists _, _|done].
Qed.

(** X9. The return value of [create_targets]. [create_targets] returns 0
    or [-1]; it returns 0 exactly when every declaration was materialized
    and the designated auto-update name, if there is one, is the name of a
    declaration. *)
Theorem create_targets_succeeds_iff parser (s : St) :
  ∃ st s',
    create_targets parser s = Done st s'
    ∧ (st = 0 ∨ st = -1)
    ∧ (st = 0 ↔
       materialized parser s
       ∧ ∀ nm, p_auto_update parser = Some nm →
               nm ∈ map pt_name (p_targets parser)).
Proof.
  destruct (create_targets_run parser s) as (st & s' & ? & ? & ? & _).
  by exists st, s'.
Qed.

(** X10. The table of a successful build. When [create_targets] returns
    0, the table holds one target per declaration, in the order of the
    declarations, each with the name and the dependencies of its
    declaration, with a script exactly when the declaration has a source,
    and with no update order, no tracked facts and a zero stamp. *)
Theorem create_targets_builds_table parser (s : St) :
  ∃ st s',
    create_targets parser s = Done st s'
    ∧ (st = 0 → Forall2 built (p_targets parser) (targets (res s'))).
Proof.
  destruct (create_targets_run parser s) as (st & s' & ? & _ & _ & Hok).
  exists st, s'. split; [done|]. intros Hst. by destruct (Hok Hst).
Qed.

(** X11. The last declaration of a name is the auto-update target. When
    [create_targets] returns 0 with a designated name, [auto_update] is
    the index of the last declaration of that name: declarations of the
    same name before it are passed over. *)
Theorem create_targets_designates_last parser (s : St) nm :
  p_auto_update parser = Some nm →
  ∃ st s',
    create_targets parser s = Done st s'
    ∧ (st = 0 →
       ∃ k, auto_update (res s') = Some (Z.of_nat k)
            ∧ map pt_name (p_targets parser) !! k = Some nm
            ∧ ∀ j, (k < j)%nat →
                   map pt_name (p_targets parser) !! j ≠ Some nm).
Proof.
  intros Hnm.
  destruct (create_targets_run parser s) as (st & s' & ? & _ & _ & Hok).
  exists st, s'. split; [done|]. intros Hst.
  destruct (Hok Hst) as [_ Hauto]. by rewrite Hnm in Hauto.
Qed.

(** X12. A freshly built table cannot be updated. Right after a
    successful [create_targets] no target has an update order yet, and
    [update_target] on any target of the table, once its transaction is
    open, reads through the null [update_targets]: the sorting stage has
    to come first. *)
Theorem update_target_needs_update_order parser (s : St) :
  ∃ st s',
    create_targets parser s = Done st s'
    ∧ (st = 0 →
       ∀ t tx w1,
         0 ≤ t < ntarget (res s') →
         start_transaction (wld s') = (tx, w1) →
         tx ≠ MQI_HANDLE_INVALID →
         update_target t s'
         = Fault (mk_state (res s') w1 (log s' ++ [EvStart tx]))).
Proof.
  destruct (create_targets_run parser s) as (st & s' & ? & _ & _ & Hok).
  exists st, s'. split; [done|]. intros Hst t tx w1 Ht Hstart Hval.
  destruct (Hok Hst) as [Hall _].
  destruct (target_at_in_range _ _ Ht) as [tg Hat].
  destruct (target_at_Some _ _ _ Hat) as [_ Hl].
  destruct (Forall2_lookup_r _ _ _ _ _ Hall Hl)
    as (pt & _ & _ & _ & _ & Hut & _).
  unfold update_target, do_start_transaction, bind, extern, emit, ret.
  rewrite Hstart. simpl.
  destruct (Z.eqb_spec tx MQI_HANDLE_INVALID); [done|].
  unfold reading, save_target_stamps. simpl. rewrite Hat. simpl.
  by rewrite Hut.
Qed.

End MoreProperties.

(** * Compiling and preparing *)

Section ScriptProperties.
Context {E scriptlet : Type} `{ScriptEngine E scriptlet}.

Local Abbreviation target := (target_t scriptlet).
Local Abbreviation St := (state E scriptlet).

Lemma stopped_at_first_failure_cons st n k sts x :
  0 ≤ x → stopped_at_first_failure st n k sts →
  stopped_at_first_failure st (S n) (S k) (x :: sts).
Proof.
  intros Hx [(-> & -> & Hall)|(-> & sts0 & bad & -> & Hall & Hbad)].
  - left. split_and!; [done|done|by constructor].
  - right. split; [done|]. exists (x :: sts0), bad.
    split_and!; [done|by constructor|done].
Qed.

Lemma compile_scripts_loop_spec (ts : list target) (s : St) :
  ∃ st s' k sts,
    compile_scripts_loop ts s = Done st s'
    ∧ res s' = res s ∧ log s' = log s
    ∧ (k ≤ length ts)%nat
    ∧ engine_calls mrp_compile_script (map script (take k ts)) (wld s)
      = (sts, wld s')
    ∧ stopped_at_first_failure st (length ts) k sts.
Proof.
  revert s. induction ts as [|tg ts IH]; intros s.
  { exists 0, s, 0%nat, []. split_and!; try done. by left. }
  simpl. unfold bind, extern.
  destruct (mrp_compile_script (script tg) (wld s)) as [st0 w1] eqn:Hc.
  destruct (Z.ltb_spec st0 0) as [Hneg|Hpos].
  - eexists (-1), _, 1%nat, [st0]. simpl. rewrite Hc.
    split_and!; try done; [lia|].
    right. split; [done|]. by exists [], st0.
  - destruct (IH (mk_state (res s) w1 (log s)))
      as (st & s' & k & sts & -> & Hres & Hlog & Hk & Hcalls & Hstop).
    exists st, s', (S k), (st0 :: sts). simpl in *. rewrite Hc, Hcalls.
    split_and!; try done; [lia|]. by apply stopped_at_first_failure_cons.
Qed.

Lemma prepare_scripts_loop_spec (ts : list target) (s : St) :
  ∃ st s' k sts,
    prepare_scripts_loop ts s = Done st s'
    ∧ res s' = res s ∧ log s' = log s
    ∧ (k ≤ length ts)%nat
    ∧ engine_calls mrp_prepare_script (map script (take k ts)) (wld s)
      = (sts, wld s')
    ∧ stopped_at_first_failure st (length ts) k sts.
Proof.
  revert s. induction ts as [|tg ts IH]; intros s.
  { exists 0, s, 0%nat, []. split_and!; try done. by left. }
  simpl. unfold bind, extern.
  destruct (mrp_prepare_script (script tg) (wld s)) as [st0 w1] eqn:Hc.
  destruct (Z.ltb_spec st0 0) as [Hneg|Hpos].
  - eexists (-1), _, 1%nat, [st0]. simpl. rewrite Hc.
    split_and!; try done; [lia|].
    right. split; [done|]. by exists [], st0.
  - destruct (IH (mk_state (res s) w1 (log s)))
      as (st & s' & k & sts & -> & Hres & Hlog & Hk & Hcalls & Hstop).
    exists st, s', (S k), (st0 :: sts). simpl in *. rewrite Hc, Hcalls.
    split_and!; try done; [lia|]. by apply stopped_at_first_failure_cons.
Qed.

(** X13. [compile_target_scripts] stops at the first failure. It hands
    the scripts of the targets to [mrp_compile_script] in table order and
    only as far as the first one whose status is negative; it returns
    [-1] when there is one and 0 when all compiled, and it leaves the
    resolver as it was. *)
Theorem compile_target_scripts_stops_at_first_failure (s : St) :
  ∃ st s' k sts,
    compile_target_scripts s = Done st s'
    ∧ res s' = res s
    ∧ (k ≤ length (targets (res s)))%nat
    ∧ engine_calls mrp_compile_script
        (map script (take k (targets (res s)))) (wld s)
      = (sts, wld s')
    ∧ stopped_at_first_failure st (length (targets (res s))) k sts.
Proof.
  destruct (compile_scripts_loop_spec (targets (res s)) s)
    as (st & s' & k & sts & ? & ? & _ & ? & ? & ?).
  by exists st, s', k, sts.
Qed.

(** X14. [prepare_target_scripts] stops at the first failure, in the same
    way: table order, no script after the first one that fails to
    prepare, [-1] then and 0 otherwise, the resolver untouched. *)
Theorem prepare_target_scripts_stops_at_first_failure (s : St) :
  ∃ st s' k sts,
    prepare_target_scripts s = Done st s'
    ∧ res s' = res s
    ∧ (k ≤ length (targets (res s)))%nat
    ∧ engine_calls mrp_prepare_script
        (map script (take k (targets (res s)))) (wld s)
      = (sts, wld s')
    ∧ stopped_at_first_failure st (length (targets (res s))) k sts.
Proof.
  destruct (prepare_scripts_loop_spec (targets (res s)) s)
    as (st & s' & k & sts & ? & ? & _ & ? & ? & ?).
  by exists st, s', k, sts.
Qed.

End ScriptProperties.

(** * The zone table *)

Module ZoneFacts.
Import Zone.

Section ZoneProperties.
Context {B V W : Type} `{Zone.Collaborators B V W}.

Local Abbreviation Zs := (zones B V W).

Lemma initial_inv (w : W) : 0 ≤ MRP_ZONE_MAX → zones_inv (initial w).
Proof.
  intros Hmax. unfold zones_inv, initial. simpl.
  split_and!; [done|done|by rewrite length_replicate|]. intros i Hi. lia.
Qed.

(** One call of [mrp_zone_create] on a table in shape: it returns, and
    either it was turned down and nothing but the world changed, or it
    filled the slot at the old count. *)
Lemma mrp_zone_create_run nm attrs (s : Zs) :
  zones_inv s →
  ∃ id s',
    mrp_zone_create nm attrs s = Done id s'
    ∧ zone_def s' = zone_def s
    ∧ (id = MRP_ZONE_ID_INVALID
       ∧ zone_count s' = zone_count s ∧ zone_table s' = zone_table s
       ∨ ∃ z, id = zone_count s
              ∧ is_Some (zone_def s)
              ∧ zone_count s < MRP_ZONE_MAX
              ∧ zone_count s' = zone_count s + 1
              ∧ zone_table s'
                = <[Z.to_nat (zone_count s) := Some z]> (zone_table s)).
Proof.
  intros (Hcount & Hlen & Hfilled). unfold mrp_zone_create.
  destruct (zone_def s) as [def|] eqn:Hdef.
  2: { exists MRP_ZONE_ID_INVALID, s. split_and!; [done|done|]. by left. }
  destruct (Z.leb_spec MRP_ZONE_MAX (zone_count s)) as [Hfull|Hroom].
  { exists MRP_ZONE_ID_INVALID, s. split_and!; [done|done|]. by left. }
  unfold bind, zextern, ret.
  destruct (mrp_allocz (zworld s)) as [[|] w1]; simpl.
  2: { eexists MRP_ZONE_ID_INVALID, _. split_and!; [done|done|]. by left. }
  destruct (mrp_strdup nm w1) as [[dup|] w2]; simpl.
  2: { eexists MRP_ZONE_ID_INVALID, _. split_and!; [done|done|]. by left. }
  destruct (mrp_attribute_set_values attrs (nattr def) (attrdefs def) w2)
    as [[sts values] w3]; simpl.
  destruct (Z.ltb_spec sts 0).
  { eexists MRP_ZONE_ID_INVALID, _. split_and!; [done|done|]. by left. }
  cbn [zone_count zone_table zone_def zworld].
  destruct (Z.leb_spec 0 (zone_count s)); [|lia].
  destruct (Nat.ltb_spec (Z.to_nat (zone_count s)) (length (zone_table s)));
    [|lia].
  simpl. eexists _, _. split_and!; [done|done|]. right.
  eexists. split_and!; [done|done|done|done|done].
Qed.

Lemma mrp_zone_find_by_id_run id (s : Zs) :
  zones_inv s → 0 ≤ id →
  ∃ slot, mrp_zone_find_by_id id s = Done slot s
          ∧ (is_Some slot ↔ id < zone_count s)
          ∧ (id < zone_count s → zone_table s !! Z.to_nat id = Some slot).
Proof.
  intros (Hcount & Hlen & Hfilled) Hid. unfold mrp_zone_find_by_id.
  destruct (Z.ltb_spec id (zone_count s)) as [Hlt|Hge].
  - destruct (Hfilled (Z.to_nat id)) as [z Hz]; [lia|]. rewrite Hz.
    exists (Some z). split_and!; [done| |done]. by split.
  - exists None. split_and!; [done| |lia]. split; [by intros [? ?]|lia].
Qed.

(** X15. The zone table stays in shape. A call of [mrp_zone_create] on a
    table whose count is within [MRP_ZONE_MAX] and whose slots below the
    count are filled returns and leaves such a table: the count never
    passes [MRP_ZONE_MAX] and no slot below it is empty. *)
Theorem mrp_zone_create_keeps_invariant nm attrs (s : Zs) :
  zones_inv s →
  ∃ id s', mrp_zone_create nm attrs s = Done id s' ∧ zones_inv s'.
Proof.
  intros Hinv.
  destruct (mrp_zone_create_run nm attrs s Hinv)
    as (id & s' & Hrun & _ & Hcase).
  exists id, s'. split; [done|].
  destruct Hinv as (Hcount & Hlen & Hfilled).
  destruct Hcase as [(_ & Hc & Ht)|(z & _ & _ & Hroom & Hc & Ht)];
    unfold zones_inv; rewrite Hc, Ht.
  - done.
  - split_and!; [lia|lia|by rewrite length_insert|].
    intros i Hi.
    destruct (decide (i = Z.to_nat (zone_count s))) as [->|Hne].
    + exists z. apply list_lookup_insert_eq. lia.
    + rewrite list_lookup_insert_ne by done. apply Hfilled. lia.
Qed.

(** X16. A created zone is found under its id. On a table in shape, and
    with [MRP_ZONE_ID_INVALID] not below [MRP_ZONE_MAX], a creation that
    does not return [MRP_ZONE_ID_INVALID] returns the old count, raises
    the count by one, and [mrp_zone_find_by_id] on the returned id then
    gives a zone. *)
Theorem created_zone_is_found nm attrs (s : Zs) id s' :
  zones_inv s → MRP_ZONE_MAX ≤ MRP_ZONE_ID_INVALID →
  mrp_zone_create nm attrs s = Done id s' →
  id ≠ MRP_ZONE_ID_INVALID →
  id = zone_count s
  ∧ zone_count s' = id + 1
  ∧ ∃ z, mrp_zone_find_by_id id s' = Done (Some z) s'.
Proof.
  intros Hinv Hmax Hrun Hid.
  destruct (mrp_zone_create_run nm attrs s Hinv)
    as (id' & s'' & Hrun' & _ & Hcase).
  rewrite Hrun in Hrun'. injection Hrun' as <- <-.
  destruct Hinv as (Hcount & Hlen & Hfilled).
  destruct Hcase as [(? & _)|(z & -> & _ & Hroom & Hc & Ht)]; [done|].
  split_and!; [done|done|]. exists z. unfold mrp_zone_find_by_id.
  rewrite Hc, Ht. destruct (Z.ltb_spec (zone_count s) (zone_count s + 1));
    [|lia].
  by rewrite list_lookup_insert_eq by lia.
Qed.

(** X17. Creating a zone keeps the earlier ones. On a table in shape,
    whatever [mrp_zone_create] returns, every id below the old count is
    found afterwards with the zone it had before. *)
Theorem earlier_zones_are_kept nm attrs (s : Zs) id s' j :
  zones_inv s →
  mrp_zone_create nm attrs s = Done id s' →
  0 ≤ j < zone_count s →
  ∃ z, mrp_zone_find_by_id j s = Done (Some z) s
       ∧ mrp_zone_find_by_id j s' = Done (Some z) s'.
Proof.
  intros Hinv Hrun Hj.
  destruct (mrp_zone_create_run nm attrs s Hinv)
    as (id' & s'' & Hrun' & _ & Hcase).
  rewrite Hrun in Hrun'. injection Hrun' as <- <-.
  destruct Hinv as (Hcount & Hlen & Hfilled).
  destruct (Hfilled (Z.to_nat j)) as [z Hz]; [lia|].
  exists z. unfold mrp_zone_find_by_id.
  destruct (Z.ltb_spec j (zone_count s)); [|lia]. rewrite Hz.
  split; [done|].
  destruct Hcase as [(_ & Hc & Ht)|(z' & _ & _ & _ & Hc & Ht)];
    rewrite Hc, Ht.
  - destruct (Z.ltb_spec j (zone_count s)); [|lia]. by rewrite Hz.
  - destruct (Z.ltb_spec j (zone_count s + 1)); [|lia].
    by rewrite list_lookup_insert_ne, Hz by lia.
Qed.

(** X18. A creation that is turned down leaves the table alone. Without
    a zone definition, or with [MRP_ZONE_MAX] zones in the table,
    [mrp_zone_create] returns [MRP_ZONE_ID_INVALID] at once, the allocator
    not being called; and on a table in shape, with
    [MRP_ZONE_ID_INVALID] not below [MRP_ZONE_MAX], whenever it returns
    [MRP_ZONE_ID_INVALID] the definition, the count and the table are
    what they were. *)
Theorem refused_creation_changes_nothing nm attrs (s : Zs) :
  (zone_def s = None ∨ MRP_ZONE_MAX ≤ zone_count s →
   mrp_zone_create nm attrs s = Done MRP_ZONE_ID_INVALID s)
  ∧ (zones_inv s → MRP_ZONE_MAX ≤ MRP_ZONE_ID_INVALID →
     ∀ s', mrp_zone_create nm attrs s = Done MRP_ZONE_ID_INVALID s' →
           zone_def s' = zone_def s
           ∧ zone_count s' = zone_count s
           ∧ zone_table s' = zone_table s).
Proof.
  split.
  - intros Hcase. unfold mrp_zone_create.
    destruct (zone_def s); [|done].
    destruct Hcase as [?|Hfull]; [done|].
    by destruct (Z.leb_spec MRP_ZONE_MAX (zone_count s)); [|lia].
  - intros Hinv Hmax s' Hrun.
    destruct (mrp_zone_create_run nm attrs s Hinv)
      as (id' & s'' & Hrun' & Hdef & Hcase).
    rewrite Hrun in Hrun'. injection Hrun' as <- <-.
    destruct Hcase as [(_ & ? & ?)|(z & Hid & _ & Hroom & _)]; [done|].
    destruct Hinv as (Hcount & _). lia.
Qed.

(** X19. [mrp_zone_find_by_id]. On a table in shape it returns without
    changing anything, and it gives a zone exactly for the ids below the
    count: NULL at and past the count, never NULL below it. *)
Theorem mrp_zone_find_by_id_bounds id (s : Zs) :
  zones_inv s → 0 ≤ id →
  ∃ slot, mrp_zone_find_by_id id s = Done slot s
          ∧ (is_Some slot ↔ id < zone_count s).
Proof.
  intros Hinv Hid.
  destruct (mrp_zone_find_by_id_run id s Hinv Hid) as (slot & ? & ? & _).
  by exists slot.
Qed.

(** The number of attribute definitions before the first nameless one. *)
Lemma count_attrs_named (defs : list (mrp_attr_def_t B)) n m :
  count_attrs defs n = Some m →
  ∃ k, m = n + Z.of_nat k
       ∧ (∀ j d, (j < k)%nat → defs !! j = Some d → attr_name d ≠ None)
       ∧ ∃ d, defs !! k = Some d ∧ attr_name d = None.
Proof.
  revert n. induction defs as [|d defs IH]; intros n; [done|]. simpl.
  destruct (attr_name d) as [nm|] eqn:Hd.
  - intros (k & -> & Hnamed & Hend)%IH. exists (S k).
    split_and!; [lia| |done].
    intros [|j] d' Hj Hl; simpl in Hl; [by simplify_eq; rewrite Hd|].
    apply (Hnamed j); [lia|done].
  - intros [= <-]. exists 0%nat. split_and!; [lia|intros; lia|].
    by exists d.
Qed.

(** X20. [mrp_zone_definition_create] installs the definition before it
    copies. For a terminated array of attribute definitions the call
    returns 0 or [-1] and never touches the zones. When the allocation
    fails it returns [-1] and the old definition stays. When the
    allocation succeeds the new definition is installed, with [nattr] the
    number of definitions before the first nameless one, whether or not
    the copy then fails; the call returns 0 exactly when the copy did
    not fail. *)
Theorem mrp_zone_definition_create_installs
  (defs : list (mrp_attr_def_t B)) (s : Zs) n :
  count_attrs defs 0 = Some n →
  ∃ st s',
    mrp_zone_definition_create (Some defs) s = Done st s'
    ∧ zone_count s' = zone_count s ∧ zone_table s' = zone_table s
    ∧ (st = 0 ∨ st = -1)
    ∧ (∃ k, n = Z.of_nat k
            ∧ (∀ j d, (j < k)%nat → defs !! j = Some d →
                      attr_name d ≠ None)
            ∧ ∃ d, defs !! k = Some d ∧ attr_name d = None)
    ∧ match mrp_allocz (zworld s) with
      | (false, _) => st = -1 ∧ zone_def s' = zone_def s
      | (true, w1) =>
          ∃ d, zone_def s' = Some d ∧ nattr d = n
               ∧ (st = 0 ↔
                  0 ≤ (mrp_attribute_copy_definitions (Some defs)
                         (replicate (Z.to_nat n) (mk_attr None zero_rest))
                         w1).1.1)
      end.
Proof.
  intros Hn. unfold mrp_zone_definition_create. rewrite Hn.
  destruct (count_attrs_named _ _ _ Hn) as (k & Hk & Hnamed & Hend).
  unfold bind, zextern, ret.
  destruct (mrp_allocz (zworld s)) as [[|] w1]; simpl.
  - destruct (mrp_attribute_copy_definitions _ _ w1) as [[st copied] w2].
    simpl. destruct (Z.ltb_spec st 0).
    + eexists (-1), _. split_and!; try done; [by right|by exists k|].
      eexists. split_and!; [done|done|]. simpl. split; [done|lia].
    + eexists 0, _. split_and!; try done; [by left|by exists k|].
      eexists. split_and!; [done|done|]. by simpl.
  - eexists (-1), _. split_and!; try done; [by right|by exists k].
Qed.

End ZoneProperties.
End ZoneFacts.

(** * The further properties on the concrete store *)

Lemma save_then_restore_is_identity_witness :
  ∃ buf,
    save_target_stamps (res failing) 1
      (buf_new (ntarget (res failing) * nfact (res failing))) = Some buf
    ∧ restore_target_stamps (res failing) 1 buf = Some (res failing).
Proof.
  apply (save_then_restore_is_identity (res failing) 1);
    [reflexivity|vm_compute; split; congruence].
Defined.

Lemma older_than_targets_characterised_witness :
  ∃ b, older_than_targets (res failing) 1 = Some b
       ∧ (b = true ↔
          ∃ id dep, id ∈ before_sentinel [0; 1; -1]
                    ∧ target_at (res failing) id = Some dep
                    ∧ stamp (sub_b (Return 0)) < stamp dep).
Proof.
  apply (older_than_targets_characterised (res failing) 1
           (sub_b (Return 0)) [0; 1; -1]);
    [reflexivity|reflexivity|reflexivity|].
  intros id Hid. simpl in Hid.
  repeat (apply elem_of_cons in Hid as [->|Hid];
          [vm_compute; split; congruence|]).
  by apply elem_of_nil in Hid.
Defined.

Lemma refreshed_target_is_fresh_witness :
  older_than_facts (wld behind) (res behind) 0 = Some true
  ∧ ∃ r', update_target_stamps (wld behind) (res behind) 0 = Some r'
          ∧ older_than_facts (wld behind) r' 0 = Some false.
Proof.
  split; [reflexivity|].
  apply (refreshed_target_is_fresh (wld behind) (res behind) 0
           (tgt "c" (Some [0; -1]) [0; -1] [0] (Some (Return 1))) [0; -1]);
    reflexivity.
Defined.

Lemma update_target_keeps_table_shape_witness :
  ∃ st s',
    update_target 1 succeeding = Done st s'
    ∧ frame (res succeeding) (res s')
    ∧ wf_resolver (res s') = true.
Proof.
  apply (update_target_keeps_table_shape 1 succeeding);
    [reflexivity|vm_compute; split; congruence].
Defined.

Lemma update_target_touches_only_walked_witness :
  ∃ st s',
    update_target 0 succeeding = Done st s'
    ∧ ∀ x, x ≠ 0 → x ∉ visited [0; -1] 0 →
           target_at (res s') x = target_at (res succeeding) x.
Proof.
  apply (update_target_touches_only_walked 0 succeeding dep_a [0; -1]);
    [reflexivity|vm_compute; split; congruence|reflexivity|reflexivity].
Defined.

Lemma subject_without_facts_always_runs_witness :
  ∃ st s' evs,
    update_target 0 untracked = Done st s'
    ∧ log s' = log untracked ++ evs
    ∧ (some_exec_failed evs ∨ ∃ st2 w2, EvExecute 0 st2 w2 ∈ evs).
Proof.
  apply (subject_without_facts_always_runs 0 untracked
           (tgt "n" None [0; -1] [] (Some (Return 2))));
    [reflexivity|vm_compute; split; congruence|reflexivity|reflexivity
    |vm_compute; congruence].
Defined.

Lemma fresh_request_runs_nothing_witness :
  update_target 0 fresh
  = Done TRUE (mk_state (res fresh) (wld fresh) [EvStart 1; EvCommit 1 true]).
Proof.
  apply (fresh_request_runs_nothing 0 fresh
           (tgt "c" (Some [0; -1]) [0; -1] [1] (Some (Return 1))) [0; -1]
           1 (wld fresh) true (wld fresh));
    [reflexivity|vm_compute; split; congruence|reflexivity|reflexivity
    |reflexivity|vm_compute; congruence|reflexivity|reflexivity|].
  intros d Hd. simpl in Hd. by apply elem_of_nil in Hd.
Defined.

Lemma update_target_by_name_first_match_witness :
  update_target_by_name "b" failing = update_target 1 failing.
Proof.
  apply (update_target_by_name_first_match "b" 1 (sub_b (Return 0)) failing);
    [reflexivity|reflexivity|].
  intros [|j] tg' Hj Hl; [|lia]. simpl in Hl. by simplify_eq.
Defined.

Lemma create_targets_designates_last_witness :
  ∃ st s',
    create_targets (twice_a (Some "a")) (st0 [] 0 [] true) = Done st s'
    ∧ (st = 0 →
       ∃ k, auto_update (res s') = Some (Z.of_nat k)
            ∧ map pt_name (p_targets (twice_a (Some "a"))) !! k = Some "a"
            ∧ ∀ j, (k < j)%nat →
                   map pt_name (p_targets (twice_a (Some "a"))) !! j
                   ≠ Some "a").
Proof.
  apply (create_targets_designates_last (twice_a (Some "a"))
           (st0 [] 0 [] true) "a"); reflexivity.
Defined.

(** Of the two declarations named [a], the second becomes the auto-update
    target. *)
Example create_targets_takes_second_a :
  ∃ s', create_targets (twice_a (Some "a")) (st0 [] 0 [] true) = Done 0 s'
        ∧ auto_update (res s') = Some 2
        ∧ nfact (res s') = 1.
Proof. eexists. by split_and!. Qed.

(** Compilation stops at [b], whose script does not compile. *)
Example compile_stops_at_failing_script :
  compile_target_scripts failing = Done (-1) failing
  ∧ compile_target_scripts succeeding = Done 0 succeeding.
Proof. by split. Qed.

Lemma mrp_zone_create_keeps_invariant_witness :
  Zone.zones_inv one_zone
  ∧ ∃ id s', Zone.mrp_zone_create "second" None one_zone = Done id s'
             ∧ Zone.zones_inv s'.
Proof.
  assert (Zone.zones_inv one_zone) as Hinv.
  { split_and!; [done|done|reflexivity|].
    intros [|i] Hi; [by eexists|]. simpl in Hi. lia. }
  split; [exact Hinv|].
  exact (ZoneFacts.mrp_zone_create_keeps_invariant "second" None one_zone
           Hinv).
Defined.

Lemma created_zone_is_found_witness :
  1 = Zone.zone_count one_zone
  ∧ Zone.zone_count two_zones = 1 + 1
  ∧ ∃ z, Zone.mrp_zone_find_by_id 1 two_zones = Done (Some z) two_zones.
Proof.
  apply (ZoneFacts.created_zone_is_found "second" None one_zone);
    [|vm_compute; congruence|reflexivity|vm_compute; congruence].
  split_and!; [done|done|reflexivity|].
  intros [|i] Hi; [by eexists|]. simpl in Hi. lia.
Defined.

Lemma earlier_zones_are_kept_witness :
  ∃ z, Zone.mrp_zone_find_by_id 0 one_zone = Done (Some z) one_zone
       ∧ Zone.mrp_zone_find_by_id 0 two_zones = Done (Some z) two_zones.
Proof.
  apply (ZoneFacts.earlier_zones_are_kept "second" None one_zone 1);
    [|reflexivity|vm_compute; split; congruence].
  split_and!; [done|done|reflexivity|].
  intros [|i] Hi; [by eexists|]. simpl in Hi. lia.
Defined.

Lemma mrp_zone_find_by_id_bounds_witness :
  ∃ slot, Zone.mrp_zone_find_by_id 1 one_zone = Done slot one_zone
          ∧ (is_Some slot ↔ 1 < Zone.zone_count one_zone).
Proof.
  apply (ZoneFacts.mrp_zone_find_by_id_bounds 1 one_zone); [|done].
  split_and!; [done|done|reflexivity|].
  intros [|i] Hi; [by eexists|]. simpl in Hi. lia.
Defined.

Lemma mrp_zone_definition_create_installs_witness :
  ∃ st s',
    Zone.mrp_zone_definition_create (Some two_attrs) (Zone.initial 3%nat)
    = Done st s'
    ∧ st = 0
    ∧ ∃ d, Zone.zone_def s' = Some d ∧ Zone.nattr d = 2.
Proof.
  destruct (ZoneFacts.mrp_zone_definition_create_installs two_attrs
              (Zone.initial 3%nat) 2 eq_refl)
    as (st & s' & Hrun & _ & _ & _ & _ & Halloc).
  exists st, s'. split; [exact Hrun|]. simpl in Halloc.
  destruct Halloc as (d & Hd & Hn & Hiff).
  split; [apply Hiff; simpl; lia|]. by exists d.
Defined.

(** With the table full, a third zone is turned down. *)
Example third_zone_is_refused :
  ∃ s1 s2,
    Zone.mrp_zone_create "second" None one_zone = Done 1 s1
    ∧ Zone.mrp_zone_create "third" None s1 = Done 4294967295 s2
    ∧ s2 = s1.
Proof. eexists _, _. by split_and!. Qed.

Lemma refused_creation_changes_nothing_witness :
  Zone.mrp_zone_create "z" None (Zone.initial 3%nat)
  = Done Zone.MRP_ZONE_ID_INVALID (Zone.initial 3%nat)
  ∧ Zone.mrp_zone_create "third" None two_zones
    = Done Zone.MRP_ZONE_ID_INVALID two_zones.
Proof.
  split.
  - apply (ZoneFacts.refused_creation_changes_nothing "z" None
             (Zone.initial 3%nat)). by left.
  - apply (ZoneFacts.refused_creation_changes_nothing "third" None
             two_zones). right. vm_compute. congruence.
Defined.
